(** * Connectionless Unix endpoints (package [unix], file connectionless.go)

    A shallow embedding of [connectionlessEndpoint] and of the operations
    of connectionless.go, over an explicit store of endpoints and queues.

    Go pointers are store addresses; a method with receiver
    [e *connectionlessEndpoint] takes the address [e] and runs in a small
    state-and-panic monad.  [e.Lock()] / [e.Unlock()] are not modelled:
    every operation below is one sequential critical section. *)

From Stdlib Require Import ZArith String List Lia.
From stdpp Require Import base option gmap strings.

Module Unix.

Local Open Scope Z_scope.

(** ** Values *)

(** Store addresses (Go pointers). *)
Definition loc := nat.

(** Errors.  The five [tcpip.Err...] values are the ones connectionless.go
    names.  [ErrQueueFull] and [ErrQueueClosed] are what a queue answers;
    [ErrOther] stands for any further error value (a commit callback may
    return whatever it likes). *)
Inductive Error : Type :=
| ErrInvalidEndpointState
| ErrConnectionRefused
| ErrNotSupported
| ErrAlreadyBound
| ErrBadLocalAddress
| ErrQueueFull
| ErrQueueClosed
| ErrOther (code : nat).

(** Go's [error] interface: [nil] or an error value. *)
Definition error := option Error.

(** Modelled from the spec: [tcpip.FullAddress] is declared outside
    connectionless.go; the file reads and writes its [Addr] field only.
    Addresses are opaque strings, the empty string meaning no address. *)
Record FullAddress : Type := mkFullAddress { Addr : string }.

(** The zero value of [tcpip.FullAddress]. *)
Definition zeroFullAddress : FullAddress := {| Addr := "" |}.

(** [tcpip.ControlMessages] is an opaque interface value: [nil] or a
    reference to a control-message object. *)
Definition ControlMessages := option loc.

(** [buffer.View] is a byte slice. *)
Definition View := list Byte.byte.

(** [len(v)]: a Go [int]. *)
Definition len (v : View) : Z := Z.of_nat (length v).

(** The conversion [uintptr(n)] on a 64-bit target. *)
Definition uintptr (n : Z) : Z := n mod 2 ^ 64.

(** The largest Go [int]; no slice is longer. *)
Definition maxInt : Z := 2 ^ 63 - 1.

(** [Message{Data, Control, Address}]. *)
Record Message : Type := mkMessage {
  Data : View;
  Control : ControlMessages;
  Address : FullAddress
}.

(** A [tcpip.Endpoint] interface value: [nil], or a dynamic type together
    with a pointer.  Of the endpoint kinds of the package only
    [*connectionlessEndpoint] implements [ConnectionlessEndpoint]. *)
Inductive Endpoint : Type :=
| nilEndpoint
| connectionless (e : loc)
| otherEndpoint (e : loc).

(** [queueReceiver{readQueue}]: the only receiver a connectionless endpoint
    is ever given (by [NewConnectionless]). *)
Record queueReceiver : Type := mkQueueReceiver { readQueue : loc }.

(** [connectedEndpoint{endpoint, writeQueue}], the peer handle. *)
Record connectedEndpoint : Type := mkConnectedEndpoint {
  endpoint : Endpoint;
  writeQueue : loc
}.

(** Modelled from the spec: [baseEndpoint] is declared outside
    connectionless.go.  These are the three fields the file touches: the
    receiver slot and the connected-peer slot (interface values, [None]
    for [nil]) and the bound path. *)
Record baseEndpoint : Type := mkBaseEndpoint {
  receiver : option queueReceiver;
  connected : option connectedEndpoint;
  path : string
}.

Definition set_receiver (r : option queueReceiver) (b : baseEndpoint) :=
  {| receiver := r; connected := connected b; path := path b |}.
Definition set_connected (c : option connectedEndpoint) (b : baseEndpoint) :=
  {| receiver := receiver b; connected := c; path := path b |}.
Definition set_path (p : string) (b : baseEndpoint) :=
  {| receiver := receiver b; connected := connected b; path := p |}.

(** Modelled from the spec: the queue package is not part of the file.
    A receive queue is a bounded FIFO of messages with a capacity limit
    fixed at creation and a closed flag. *)
Record Queue : Type := mkQueue {
  dataList : list Message;
  limit : nat;
  closed : bool
}.

(** ** The store and the monad *)

Record state : Type := mkState {
  endpoints : gmap loc baseEndpoint;
  queues : gmap loc Queue
}.

Definition set_endpoints (f : gmap loc baseEndpoint -> gmap loc baseEndpoint)
    (s : state) : state :=
  {| endpoints := f (endpoints s); queues := queues s |}.
Definition set_queues (f : gmap loc Queue -> gmap loc Queue)
    (s : state) : state :=
  {| endpoints := endpoints s; queues := f (queues s) |}.

(** A call either returns a value and a store, or panics (nil dereference,
    failed type assertion). *)
Inductive outcome (A : Type) : Type :=
| Ret (a : A) (s : state)
| Panic.
Arguments Ret {A} a s.
Arguments Panic {A}.

Definition M (A : Type) : Type := state -> outcome A.

Definition ret {A} (a : A) : M A := fun s => Ret a s.
Definition panic {A} : M A := fun _ => Panic.
Definition bind {A B} (m : M A) (k : A -> M B) : M B :=
  fun s => match m s with
           | Ret a s' => k a s'
           | Panic => Panic
           end.

Notation "x <- m ;; k" := (bind m (fun x => k))
  (at level 100, m at next level, right associativity).
Notation "m ;;; k" := (bind m (fun _ => k))
  (at level 100, right associativity).

(** [b && m] of Go: [m] is evaluated only when [b] holds. *)
Definition andThen (b : bool) (m : M bool) : M bool :=
  if b then m else ret false.

(** Reading field [f] of [*e]; a dangling [e] dereferences nil. *)
Definition getf {A} (e : loc) (f : baseEndpoint -> A) : M A :=
  fun s => match endpoints s !! e with
           | Some b => Ret (f b) s
           | None => Panic
           end.

(** Writing one field of [*e]. *)
Definition setf (e : loc) (upd : baseEndpoint -> baseEndpoint) : M unit :=
  fun s => match endpoints s !! e with
           | Some b => Ret tt (set_endpoints (insert e (upd b)) s)
           | None => Panic
           end.

(** ** The queue, at its interface *)

(** Modelled from the spec: [enqueue(message) -> ok|full|closed].  A
    closed queue refuses, a queue at its limit refuses, otherwise the
    message is appended whole. *)
Definition Enqueue (q : loc) (m : Message) : M error :=
  fun s => match queues s !! q with
           | None => Panic
           | Some Q =>
               if closed Q then Ret (Some ErrQueueClosed) s
               else if (limit Q <=? length (dataList Q))%nat
                    then Ret (Some ErrQueueFull) s
                    else Ret None
                      (set_queues
                         (insert q {| dataList := dataList Q ++ [m];
                                      limit := limit Q;
                                      closed := closed Q |}) s)
           end.

(** Modelled from the spec: whether the queue currently has room; a closed
    queue is permanently unwritable. *)
Definition IsWritable (q : loc) : M bool :=
  fun s => match queues s !! q with
           | None => Panic
           | Some Q =>
               Ret (negb (closed Q) && (length (dataList Q) <? limit Q)%nat) s
           end.

(** Modelled from the spec: the queue's own readable predicate: it holds
    data; a closed queue is permanently unreadable. *)
Definition IsReadable (q : loc) : M bool :=
  fun s => match queues s !! q with
           | None => Panic
           | Some Q =>
               Ret (negb (closed Q) && negb (length (dataList Q) =? 0)%nat) s
           end.

(** Modelled from the spec: [close()], idempotent; the queue keeps its
    contents and its limit and is closed from then on. *)
Definition QueueClose (q : loc) : M unit :=
  fun s => match queues s !! q with
           | None => Panic
           | Some Q =>
               Ret tt (set_queues
                         (insert q {| dataList := dataList Q;
                                      limit := limit Q;
                                      closed := true |}) s)
           end.

(** Modelled from the spec: the methods of the receiver and of the peer
    handle that connectionless.go calls.  They are declared next to
    [baseEndpoint] and delegate to the queue they reference.  A method
    call on a nil interface value panics. *)
Definition CloseRecv (r : option queueReceiver) : M unit :=
  match r with
  | Some qr => QueueClose (readQueue qr)
  | None => panic
  end.

Definition Readable (r : option queueReceiver) : M bool :=
  match r with
  | Some qr => IsReadable (readQueue qr)
  | None => panic
  end.

Definition Send (c : connectedEndpoint) (m : Message) : M error :=
  Enqueue (writeQueue c) m.

Definition Writable (c : option connectedEndpoint) : M bool :=
  match c with
  | Some ce => IsWritable (writeQueue ce)
  | None => panic
  end.

(** Modelled from the spec: [baseEndpoint.Connected], declared outside
    connectionless.go: a default peer is currently connected. *)
Definition Connected (e : loc) : M bool :=
  c <- getf e connected ;;
  ret (match c with Some _ => true | None => false end).

(** Modelled from the spec: the [waiter] event bits are declared outside
    connectionless.go; readable and writable are two distinct bits of a
    16-bit mask. *)
Definition EventIn : Z := 1.
Definition EventOut : Z := 4.

(** ** connectionless.go *)

(** [NewConnectionless]: a new unbound endpoint holding a fresh, open,
    empty queue.  [initialLimit] is a constant of the package declared
    outside connectionless.go and is taken as a parameter; the waiter
    queue [wq] plays no part here. *)
Definition NewConnectionless (initialLimit : nat) : M Endpoint :=
  fun s =>
    let q := fresh (dom (queues s)) in
    let e := fresh (dom (endpoints s)) in
    Ret (connectionless e)
      {| endpoints :=
           <[e := {| receiver := Some {| readQueue := q |};
                     connected := None;
                     path := "" |}]> (endpoints s);
         queues :=
           <[q := {| dataList := []; limit := initialLimit;
                     closed := false |}]> (queues s) |}.

(** [isBound]: [e.path != ""]. *)
Definition isBound (e : loc) : M bool :=
  p <- getf e path ;;
  ret (negb (String.eqb p "")).

Definition Close (e : loc) : M unit :=
  c <- Connected e ;;
  (if c then
     r <- getf e receiver ;;
     CloseRecv r ;;;
     setf e (set_receiver None) ;;;
     setf e (set_connected None)
   else ret tt) ;;;
  b <- isBound e ;;
  if b then setf e (set_path "") else ret tt.

(** The write queue is the receiver's [readQueue], reached through a type
    assertion of [e.receiver] to a queueReceiver pointer.  The assertion
    has no comma-ok form, so a nil receiver panics. *)
Definition UnidirectionalConnect (e : loc) : M connectedEndpoint :=
  r <- getf e receiver ;;
  match r with
  | Some qr =>
      ret {| endpoint := connectionless e; writeQueue := readQueue qr |}
  | None => panic
  end.

Definition SendMsgTo (e : loc) (v : View) (c : ControlMessages)
    (to : Endpoint) : M (Z * error) :=
  match to with
  | connectionless toep =>
      connected <- UnidirectionalConnect toep ;;
      let m := {| Data := v; Control := c; Address := zeroFullAddress |} in
      b <- isBound e ;;
      m <- (if b
            then p <- getf e path ;;
                 ret {| Data := Data m; Control := Control m;
                        Address := {| Addr := p |} |}
            else ret m) ;;
      err <- Send connected m ;;
      match err with
      | Some x => ret (0, Some x)
      | None => ret (uintptr (len v), None)
      end
  | _ => ret (0, Some ErrInvalidEndpointState)
  end.

Definition ConnectEndpoint (e : loc) (server : Endpoint) : M error :=
  match server with
  | connectionless bound =>
      connected <- UnidirectionalConnect bound ;;
      setf e (set_connected (Some connected)) ;;;
      ret None
  | _ => ret (Some ErrConnectionRefused)
  end.

Definition Listen (e : loc) (backlog : Z) : M error :=
  ret (Some ErrNotSupported).

(** The second result is the [*waiter.Queue], nil here. *)
Definition Accept (e : loc) : M (Endpoint * option loc * error) :=
  ret (nilEndpoint, None, Some ErrNotSupported).

(** [commit] is [None] for a nil callback; a callback is any computation
    over the store that answers an [error]. *)
Definition Bind (e : loc) (addr : FullAddress) (commit : option (M error))
    : M error :=
  b <- isBound e ;;
  if b then ret (Some ErrAlreadyBound)
  else if String.eqb (Addr addr) "" then ret (Some ErrBadLocalAddress)
  else
    err <- match commit with
           | Some f => f
           | None => ret None
           end ;;
    match err with
    | Some x => ret (Some x)
    | None => setf e (set_path (Addr addr)) ;;; ret None
    end.

Definition Readiness (e : loc) (mask : Z) : M Z :=
  let ready := 0 in
  rd <- andThen (negb (Z.land mask EventIn =? 0))
          (r <- getf e receiver ;; Readable r) ;;
  let ready := if rd then Z.lor ready EventIn else ready in
  c <- Connected e ;;
  if c then
    w <- andThen (negb (Z.land mask EventOut =? 0))
           (p <- getf e connected ;; Writable p) ;;
    ret (if w then Z.lor ready EventOut else ready)
  else ret ready.

(** The message a sender whose path is [p] delivers. *)
Definition sentMessage (v : View) (c : ControlMessages) (p : string)
    : Message :=
  {| Data := v; Control := c; Address := {| Addr := p |} |}.

(** The number of messages pending in queue [q], when the store has it. *)
Definition pending (q : loc) (s : state) : option nat :=
  (fun Q => length (dataList Q)) <$> queues s !! q.

(** The messages of queue [q], oldest first. *)
Definition messages (q : loc) (s : state) : option (list Message) :=
  dataList <$> queues s !! q.

(** ** Concrete stores *)

(** Endpoint 0 is bound to "/s1", owns queue 10 and has no default peer;
    endpoint 1 is unbound, owns queue 11 and has no default peer. *)
Definition ep_bound : baseEndpoint :=
  {| receiver := Some {| readQueue := 10%nat |};
     connected := None;
     path := "/s1" |}.

Definition ep_unbound : baseEndpoint :=
  {| receiver := Some {| readQueue := 11%nat |};
     connected := None;
     path := "" |}.

(** The peer handle endpoint 0 mints to itself. *)
Definition handle0 : connectedEndpoint :=
  {| endpoint := connectionless 0%nat; writeQueue := 10%nat |}.

(** Endpoint 1 once connected to endpoint 0. *)
Definition ep_connected : baseEndpoint :=
  {| receiver := Some {| readQueue := 11%nat |};
     connected := Some handle0;
     path := "" |}.

Definition q_empty : Queue :=
  {| dataList := []; limit := 2; closed := false |}.

(** The five bytes of "hello". *)
Definition hello : View :=
  [Byte.x68; Byte.x65; Byte.x6c; Byte.x6c; Byte.x6f].

Definition q_full : Queue :=
  {| dataList := [sentMessage hello None ""; sentMessage hello None ""];
     limit := 2; closed := false |}.

Definition q_closed : Queue :=
  {| dataList := []; limit := 2; closed := true |}.

Definition s_pair : state :=
  {| endpoints := {[ 0%nat := ep_bound; 1%nat := ep_unbound ]};
     queues := {[ 10%nat := q_empty; 11%nat := q_empty ]} |}.

Definition s_connected : state :=
  {| endpoints := {[ 0%nat := ep_bound; 1%nat := ep_connected ]};
     queues := {[ 10%nat := q_empty; 11%nat := q_empty ]} |}.

Definition s_full : state :=
  {| endpoints := {[ 0%nat := ep_bound; 1%nat := ep_unbound ]};
     queues := {[ 10%nat := q_full; 11%nat := q_empty ]} |}.

(** [s_connected] once endpoint 1 has been closed. *)
Definition ep_closed : baseEndpoint :=
  {| receiver := None; connected := None; path := "" |}.

Definition s_closed : state :=
  {| endpoints := {[ 0%nat := ep_bound; 1%nat := ep_closed ]};
     queues := {[ 10%nat := q_empty; 11%nat := q_closed ]} |}.

(** [s_pair] once a third endpoint has been created with capacity 2. *)
Definition ep_new : baseEndpoint :=
  {| receiver := Some {| readQueue := 12%nat |};
     connected := None;
     path := "" |}.

Definition s_three : state :=
  {| endpoints := {[ 0%nat := ep_bound; 1%nat := ep_unbound;
                     2%nat := ep_new ]};
     queues := {[ 10%nat := q_empty; 11%nat := q_empty;
                  12%nat := q_empty ]} |}.

(** A commit callback that refuses and leaves the store alone. *)
Definition commit_refuses : M error := ret (Some (ErrOther 13)).

(** A commit callback that looks at the endpoint being bound and refuses
    when it finds it bound already. *)
Definition commit_probe (e : loc) : M error :=
  b <- isBound e ;;
  if b then ret (Some (ErrOther 7)) else ret None.

(** The five bytes of "world". *)
Definition world : View :=
  [Byte.x77; Byte.x6f; Byte.x72; Byte.x6c; Byte.x64].

(** Two endpoints are created with queue capacity 2, the first is bound
    to "/s1", the second sends "hello", "world" and "hello" again to the
    first: two sends return 5, the third is refused with [ErrQueueFull],
    and the first endpoint's queue holds the two messages in order, with
    no source address. *)
Definition scenario : M (list (Z * error) * option (list Message)) :=
  E1 <- NewConnectionless 2 ;;
  E2 <- NewConnectionless 2 ;;
  match E1, E2 with
  | connectionless e1, connectionless e2 =>
      Bind e1 {| Addr := "/s1" |} None ;;;
      r1 <- SendMsgTo e2 hello None E1 ;;
      r2 <- SendMsgTo e2 world None E1 ;;
      r3 <- SendMsgTo e2 hello None E1 ;;
      q <- getf e1 receiver ;;
      fun s =>
        Ret ([r1; r2; r3],
             match q with
             | Some qr => messages (readQueue qr) s
             | None => None
             end) s
  | _, _ => panic
  end.

(** ** The claim on [Close], as the specification words it *)

(** After [Close] the peer slot, the path and the receiver slot of [e] are
    all cleared, and the queue the receiver referenced has been closed. *)
Definition closesEverything (s : state) (e : loc) : Prop :=
  forall b s',
    endpoints s !! e = Some b ->
    Close e s = Ret tt s' ->
    (exists b', endpoints s' !! e = Some b' /\
                connected b' = None /\ path b' = "" /\ receiver b' = None) /\
    (forall qr, receiver b = Some qr ->
       exists Q', queues s' !! readQueue qr = Some Q' /\ closed Q' = true).

(** ** Symbolic execution *)

Ltac unfold_ops :=
  unfold Close, SendMsgTo, ConnectEndpoint, Listen, Accept, Bind, Readiness,
    UnidirectionalConnect, Connected, isBound, CloseRecv, Readable, Send,
    Writable, Enqueue, IsWritable, IsReadable, QueueClose, andThen, getf,
    setf, bind, ret, panic in *.

Ltac store_simpl :=
  unfold set_endpoints, set_queues, set_receiver, set_connected, set_path
    in *;
  cbn [endpoints queues receiver connected path readQueue writeQueue endpoint
       dataList limit closed Addr Data Control Address] in *.

Lemma state_eta (s : state) :
  {| endpoints := endpoints s; queues := queues s |} = s.
Proof. by destruct s. Qed.

Lemma baseEndpoint_eta (b : baseEndpoint) :
  {| receiver := receiver b; connected := connected b; path := path b |} = b.
Proof. by destruct b. Qed.

Lemma eqb_empty_true (p : string) : String.eqb p "" = true <-> p = "".
Proof. apply String.eqb_eq. Qed.

Lemma eqb_empty_false (p : string) : String.eqb p "" = false <-> p <> "".
Proof. apply String.eqb_neq. Qed.

(** ** Stepping lemmas *)

Lemma Close_unconnected (s : state) (e : loc) (b : baseEndpoint) :
  endpoints s !! e = Some b ->
  connected b = None ->
  Close e s = Ret tt (set_endpoints (insert e (set_path "" b)) s).
Proof.
  intros He Hc. unfold_ops. rewrite He, Hc. rewrite He.
  destruct (String.eqb (path b) "") eqn:Hp; cbn.
  - apply eqb_empty_true in Hp. f_equal.
    unfold set_endpoints, set_path. rewrite <- Hp, baseEndpoint_eta.
    rewrite insert_id by done. by rewrite state_eta.
  - by rewrite He.
Qed.

Lemma Close_connected (s : state) (e : loc) (b : baseEndpoint)
    (ce : connectedEndpoint) (qr : queueReceiver) (Q : Queue) :
  endpoints s !! e = Some b ->
  connected b = Some ce ->
  receiver b = Some qr ->
  queues s !! readQueue qr = Some Q ->
  Close e s =
  Ret tt {| endpoints :=
              <[e := {| receiver := None; connected := None; path := "" |}]>
                (endpoints s);
            queues :=
              <[readQueue qr := {| dataList := dataList Q; limit := limit Q;
                                   closed := true |}]> (queues s) |}.
Proof.
  intros He Hc Hr Hq. unfold_ops. rewrite He, Hc. rewrite He, Hr, Hq.
  store_simpl. rewrite He. store_simpl. rewrite lookup_insert_eq. store_simpl.
  rewrite lookup_insert_eq. store_simpl.
  rewrite !insert_insert_eq.
  destruct (String.eqb (path b) "") eqn:Hp; cbn.
  - apply eqb_empty_true in Hp. by rewrite Hp.
  - rewrite lookup_insert_eq. by rewrite insert_insert_eq.
Qed.

Lemma Close_connected_no_receiver (s : state) (e : loc) (b : baseEndpoint)
    (ce : connectedEndpoint) :
  endpoints s !! e = Some b ->
  connected b = Some ce ->
  receiver b = None ->
  Close e s = Panic.
Proof.
  intros He Hc Hr. unfold_ops. by rewrite He, Hc, He, Hr.
Qed.

(** Whenever [Close] returns, the peer slot and the path are cleared. *)
Lemma Close_Ret_inv (s s' : state) (e : loc) (u : unit) :
  Close e s = Ret u s' ->
  exists b', endpoints s' !! e = Some b' /\
             connected b' = None /\ path b' = "".
Proof.
  intros H.
  destruct (endpoints s !! e) as [b|] eqn:He.
  2:{ unfold_ops. by rewrite He in H. }
  destruct (connected b) as [ce|] eqn:Hc.
  - destruct (receiver b) as [qr|] eqn:Hr.
    2:{ by rewrite (Close_connected_no_receiver s e b ce) in H. }
    destruct (queues s !! readQueue qr) as [Q|] eqn:Hq.
    2:{ unfold_ops. by rewrite He, Hc, He, Hr, Hq in H. }
    rewrite (Close_connected s e b ce qr Q) in H by done.
    injection H as _ <-. eexists. store_simpl.
    by rewrite lookup_insert_eq.
  - rewrite (Close_unconnected s e b) in H by done.
    injection H as _ <-. eexists. store_simpl.
    by rewrite lookup_insert_eq.
Qed.

(** The readable half of [Readiness] only reads the store. *)
Lemma readable_half_reads (s s1 : state) (e : loc) (mask : Z) (rd : bool) :
  andThen (negb (Z.land mask EventIn =? 0))
    (r <- getf e receiver ;; Readable r) s = Ret rd s1 ->
  s1 = s.
Proof.
  unfold_ops. destruct (negb _); [|congruence].
  destruct (endpoints s !! e) as [b|]; [|done].
  destruct (receiver b) as [qr|]; [|done].
  destruct (queues s !! readQueue qr); [|done]. congruence.
Qed.

(** With no default peer, [Readiness] answers nothing beyond the readable
    bit. *)
Lemma Readiness_unconnected (s s' : state) (e : loc) (b : baseEndpoint)
    (mask m : Z) :
  endpoints s !! e = Some b ->
  connected b = None ->
  Readiness e mask s = Ret m s' ->
  s' = s /\ (m = 0 \/ m = EventIn).
Proof.
  intros He Hc H. unfold Readiness in H. unfold bind at 1 in H.
  destruct (andThen _ _ s) as [rd s1|] eqn:Hrd; [|done].
  apply readable_half_reads in Hrd as ->.
  unfold_ops. rewrite He, Hc in H. injection H as <- <-.
  split; [done|]. destruct rd; auto.
Qed.

Lemma UnidirectionalConnect_receiver (s : state) (e : loc) (b : baseEndpoint)
    (qr : queueReceiver) :
  endpoints s !! e = Some b ->
  receiver b = Some qr ->
  UnidirectionalConnect e s =
  Ret {| endpoint := connectionless e; writeQueue := readQueue qr |} s.
Proof. intros He Hr. unfold_ops. by rewrite He, Hr. Qed.

Lemma UnidirectionalConnect_nil_receiver (s : state) (e : loc)
    (b : baseEndpoint) :
  endpoints s !! e = Some b ->
  receiver b = None ->
  UnidirectionalConnect e s = Panic.
Proof. intros He Hr. unfold_ops. by rewrite He, Hr. Qed.

(** The message [SendMsgTo] builds for a sender whose path is [p]. *)
Lemma stamped_message (v : View) (c : ControlMessages) (p : string) :
  (if negb (String.eqb p "")
   then {| Data := v; Control := c; Address := {| Addr := p |} |}
   else {| Data := v; Control := c; Address := zeroFullAddress |}) =
  sentMessage v c p.
Proof.
  unfold sentMessage, zeroFullAddress.
  destruct (String.eqb p "") eqn:Hp; cbn; [|done].
  apply eqb_empty_true in Hp. by rewrite Hp.
Qed.

(** [SendMsgTo] to a connectionless destination whose receiver is present
    is one [Enqueue] of the stamped message into the destination's queue. *)
Lemma SendMsgTo_Enqueue (s : state) (e l : loc) (b bl : baseEndpoint)
    (qr : queueReceiver) (v : View) (c : ControlMessages) :
  endpoints s !! e = Some b ->
  endpoints s !! l = Some bl ->
  receiver bl = Some qr ->
  SendMsgTo e v c (connectionless l) s =
  match Enqueue (readQueue qr) (sentMessage v c (path b)) s with
  | Ret (Some x) s' => Ret (0, Some x) s'
  | Ret None s' => Ret (uintptr (len v), None) s'
  | Panic => Panic
  end.
Proof.
  intros He Hl Hr. unfold SendMsgTo.
  unfold bind at 1. rewrite (UnidirectionalConnect_receiver s l bl qr) by done.
  rewrite <- stamped_message.
  unfold_ops. rewrite He. store_simpl.
  destruct (negb (String.eqb (path b) "")); rewrite ?He; store_simpl;
    destruct (queues s !! readQueue qr) as [Q|]; try done;
    destruct (closed Q); try done;
    destruct (limit Q <=? length (dataList Q))%nat; done.
Qed.

(** ** Close *)

(** What [Close] does, case by case.  Whenever [Close] completes, the
    peer slot and the path are cleared.  The receive queue is told to close, and the
    receiver slot is then cleared, when a default peer was connected at
    the time of the call; with no peer connected the receiver slot and
    every queue are left exactly as they were. *)
Theorem Close_by_peer (s : state) (e : loc) (b : baseEndpoint) :
  endpoints s !! e = Some b ->
  (forall s',
     Close e s = Ret tt s' ->
     exists b', endpoints s' !! e = Some b' /\
                connected b' = None /\ path b' = "") /\
  (connected b = None ->
     Close e s = Ret tt (set_endpoints (insert e (set_path "" b)) s)) /\
  (forall ce qr Q,
     connected b = Some ce ->
     receiver b = Some qr ->
     queues s !! readQueue qr = Some Q ->
     Close e s =
     Ret tt {| endpoints :=
                 <[e := {| receiver := None; connected := None;
                           path := "" |}]> (endpoints s);
               queues :=
                 <[readQueue qr := {| dataList := dataList Q;
                                      limit := limit Q;
                                      closed := true |}]> (queues s) |}).
Proof.
  intros He. split; [|split].
  - intros s' Hclose. by apply (Close_Ret_inv s s' e tt).
  - intros Hc. by apply Close_unconnected.
  - intros ce qr Q Hc Hr Hq. by apply (Close_connected s e b ce qr Q).
Qed.

Lemma Close_by_peer_witness :
  (exists b', endpoints s_closed !! 1%nat = Some b' /\
              connected b' = None /\ path b' = "") /\
  Close 0%nat s_pair =
    Ret tt (set_endpoints (insert 0%nat (set_path "" ep_bound)) s_pair) /\
  Close 1%nat s_connected =
    Ret tt {| endpoints := <[1%nat := ep_closed]> (endpoints s_connected);
              queues := <[11%nat := q_closed]> (queues s_connected) |}.
Proof.
  split; [|split].
  - apply (proj1 (Close_by_peer s_connected 1%nat ep_connected eq_refl)
             s_closed).
    vm_compute. reflexivity.
  - apply (proj1 (proj2 (Close_by_peer s_pair 0%nat ep_bound eq_refl))).
    reflexivity.
  - apply (proj2 (proj2 (Close_by_peer s_connected 1%nat ep_connected
                           eq_refl))
             handle0 {| readQueue := 11%nat |} q_empty);
      reflexivity.
Defined.

(** Closing the bound endpoint 0 of [s_pair], which has no default peer,
    leaves its receiver in place and queue 10 open. *)
Lemma Close_without_peer_keeps_receiver : ~ closesEverything s_pair 0%nat.
Proof.
  intros H.
  destruct (H ep_bound _ eq_refl (Close_unconnected s_pair 0%nat ep_bound
                                    eq_refl eq_refl))
    as [[b' (Hb & _ & _ & Hr)] _].
  vm_compute in Hb. injection Hb as <-. discriminate Hr.
Qed.

(** C1 fails on the code.  On an endpoint with no default peer [Close]
    returns having cleared the path and nothing else: the receiver slot
    still references its queue, and every queue is exactly as it was, so
    the receive queue was never told to close.  The sibling path, taken
    when a peer is connected, does close the queue and drop the receiver;
    this one misses it, against the doc comment of [Close] (the endpoint
    is put in a closed state and all its resources are freed). *)
Theorem Close_no_peer_keeps_queue (s : state) (e : loc) (b : baseEndpoint)
    (qr : queueReceiver) (Q : Queue) :
  endpoints s !! e = Some b ->
  connected b = None ->
  receiver b = Some qr ->
  queues s !! readQueue qr = Some Q ->
  exists s',
    Close e s = Ret tt s' /\
    (exists b', endpoints s' !! e = Some b' /\
                receiver b' = Some qr /\
                connected b' = None /\ path b' = "") /\
    queues s' = queues s /\
    queues s' !! readQueue qr = Some Q /\
    ~ closesEverything s e.
Proof.
  intros He Hc Hr Hq.
  pose proof (Close_unconnected s e b He Hc) as Hclose.
  eexists. split; [exact Hclose|].
  assert (Hb' : endpoints (set_endpoints (insert e (set_path "" b)) s) !! e
                = Some (set_path "" b)).
  { cbn. by rewrite lookup_insert_eq. }
  split; [|split; [|split]].
  - by exists (set_path "" b).
  - reflexivity.
  - exact Hq.
  - intros Hall.
    destruct (Hall b _ He Hclose) as [(b' & Hb & _ & _ & Hnil) _].
    rewrite Hb' in Hb. injection Hb as <-. cbn in Hnil. congruence.
Qed.

Lemma Close_no_peer_keeps_queue_witness :
  exists s',
    Close 0%nat s_full = Ret tt s' /\
    (exists b', endpoints s' !! 0%nat = Some b' /\
                receiver b' = Some {| readQueue := 10%nat |} /\
                connected b' = None /\ path b' = "") /\
    queues s' = queues s_full /\
    queues s' !! 10%nat = Some q_full /\
    ~ closesEverything s_full 0%nat.
Proof.
  apply (Close_no_peer_keeps_queue s_full 0%nat ep_bound
           {| readQueue := 10%nat |} q_full);
    reflexivity.
Defined.

(** Once [Close] has cleared the receiver, asking for the readable bit
    calls a method on a nil receiver. *)
Lemma Readiness_nil_receiver (s : state) (e : loc) (b : baseEndpoint)
    (mask : Z) :
  endpoints s !! e = Some b ->
  receiver b = None ->
  Z.land mask EventIn <> 0 ->
  Readiness e mask s = Panic.
Proof.
  intros He Hr Hm. unfold_ops.
  apply Z.eqb_neq in Hm. rewrite Hm. cbn. by rewrite He, Hr.
Qed.

Lemma land_EventIn_EventOut : Z.land EventIn EventOut = 0.
Proof. reflexivity. Qed.

(** After [Close] has returned, a [Readiness] call that asks for both
    the readable and the writable bit answers, if it returns at all, no
    writable bit, and [Listen] and [Accept] still fail with
    [ErrNotSupported], leaving the store alone. *)
Theorem Readiness_after_Close (s s' : state) (e : loc) (mask backlog : Z) :
  Close e s = Ret tt s' ->
  Z.land mask EventIn <> 0 ->
  Z.land mask EventOut <> 0 ->
  (forall m s'', Readiness e mask s' = Ret m s'' -> Z.land m EventOut = 0) /\
  Listen e backlog s' = Ret (Some ErrNotSupported) s' /\
  Accept e s' = Ret (nilEndpoint, None, Some ErrNotSupported) s'.
Proof.
  intros Hclose _ _. split; [|done].
  intros m s'' Hr.
  apply Close_Ret_inv in Hclose as (b' & Hb' & Hc' & _).
  destruct (Readiness_unconnected s' s'' e b' mask m Hb' Hc' Hr)
    as [_ [-> | ->]]; reflexivity.
Qed.

Lemma Readiness_after_Close_witness :
  (forall m s'',
     Readiness 0%nat 5
       (set_endpoints (insert 0%nat (set_path "" ep_bound)) s_pair) =
     Ret m s'' -> Z.land m EventOut = 0) /\
  Listen 0%nat 8
    (set_endpoints (insert 0%nat (set_path "" ep_bound)) s_pair) =
  Ret (Some ErrNotSupported)
    (set_endpoints (insert 0%nat (set_path "" ep_bound)) s_pair) /\
  Accept 0%nat
    (set_endpoints (insert 0%nat (set_path "" ep_bound)) s_pair) =
  Ret (nilEndpoint, None, Some ErrNotSupported)
    (set_endpoints (insert 0%nat (set_path "" ep_bound)) s_pair).
Proof.
  apply (Readiness_after_Close s_pair _ 0%nat 5 8).
  - vm_compute. reflexivity.
  - vm_compute. discriminate.
  - vm_compute. discriminate.
Defined.

(** C2 fails on the code where [Close] found a default peer.  [Close]
    then sets the receiver slot to nil, and a following [Readiness] call
    that asks for the readable and the writable bit calls [Readable] on
    the nil receiver and panics: instead of a mask without the writable
    bit it returns no mask at all.  [Readiness] guards its use of the peer
    slot and misses the same guard on the receiver slot.  [Listen] and
    [Accept] still fail with [ErrNotSupported]. *)
Theorem Readiness_after_Close_panics (s : state) (e : loc)
    (b : baseEndpoint) (ce : connectedEndpoint) (qr : queueReceiver)
    (Q : Queue) (mask backlog : Z) :
  endpoints s !! e = Some b ->
  connected b = Some ce ->
  receiver b = Some qr ->
  queues s !! readQueue qr = Some Q ->
  Z.land mask EventIn <> 0 ->
  Z.land mask EventOut <> 0 ->
  exists s',
    Close e s = Ret tt s' /\
    Readiness e mask s' = Panic /\
    Listen e backlog s' = Ret (Some ErrNotSupported) s' /\
    Accept e s' = Ret (nilEndpoint, None, Some ErrNotSupported) s'.
Proof.
  intros He Hc Hr Hq Hin _.
  eexists. split; [by apply (Close_connected s e b ce qr Q)|].
  split; [|done].
  apply (Readiness_nil_receiver _ e
           {| receiver := None; connected := None; path := "" |});
    [|done|done].
  cbn. by rewrite lookup_insert_eq.
Qed.

Lemma Readiness_after_Close_panics_witness :
  exists s',
    Close 1%nat s_connected = Ret tt s' /\
    Readiness 1%nat 5 s' = Panic /\
    Listen 1%nat 8 s' = Ret (Some ErrNotSupported) s' /\
    Accept 1%nat s' = Ret (nilEndpoint, None, Some ErrNotSupported) s'.
Proof.
  apply (Readiness_after_Close_panics s_connected 1%nat ep_connected
           handle0 {| readQueue := 11%nat |} q_empty 5 8);
    try reflexivity.
  - vm_compute. discriminate.
  - vm_compute. discriminate.
Defined.

(** What [Readiness] does answer in the two cases after [Close]: on the
    endpoint closed without a peer it returns no bit (the queue is empty);
    on the endpoint closed with a peer the receiver is nil and the call
    panics. *)
Example Readiness_after_Close_no_peer :
  exists s', Close 0%nat s_pair = Ret tt s' /\
             Readiness 0%nat 5 s' = Ret 0 s'.
Proof. eexists. split; vm_compute; reflexivity. Qed.

Example Readiness_after_Close_peer :
  exists s', Close 1%nat s_connected = Ret tt s' /\
             Readiness 1%nat 5 s' = Panic.
Proof. eexists. split; vm_compute; reflexivity. Qed.

(** ** UnidirectionalConnect *)

(** Minting a handle to an endpoint whose receiver is nil panics, and so
    does everything that mints one first. *)
Lemma SendMsgTo_nil_receiver (s : state) (e l : loc) (bl : baseEndpoint)
    (v : View) (c : ControlMessages) :
  endpoints s !! l = Some bl ->
  receiver bl = None ->
  SendMsgTo e v c (connectionless l) s = Panic.
Proof.
  intros Hl Hr. unfold SendMsgTo, bind.
  by rewrite (UnidirectionalConnect_nil_receiver s l bl).
Qed.

Lemma ConnectEndpoint_nil_receiver (s : state) (e l : loc)
    (bl : baseEndpoint) :
  endpoints s !! l = Some bl ->
  receiver bl = None ->
  ConnectEndpoint e (connectionless l) s = Panic.
Proof.
  intros Hl Hr. unfold ConnectEndpoint, bind.
  by rewrite (UnidirectionalConnect_nil_receiver s l bl).
Qed.

(** C3.  [UnidirectionalConnect] returns a handle exactly when the
    receiver is present, and then the handle's write queue is the
    receiver's read queue; on a nil receiver the unguarded type assertion
    panics, and with it every [SendMsgTo] and [ConnectEndpoint] that
    targets the endpoint.  That is the state a [Close] with a peer
    connected leaves behind. *)
Theorem UnidirectionalConnect_needs_receiver (s : state) (e : loc)
    (b : baseEndpoint) :
  endpoints s !! e = Some b ->
  (forall qr, receiver b = Some qr ->
     UnidirectionalConnect e s =
     Ret {| endpoint := connectionless e; writeQueue := readQueue qr |} s) /\
  (receiver b = None ->
     UnidirectionalConnect e s = Panic /\
     forall sender v c,
       SendMsgTo sender v c (connectionless e) s = Panic /\
       ConnectEndpoint sender (connectionless e) s = Panic) /\
  (forall ce s',
     connected b = Some ce ->
     Close e s = Ret tt s' ->
     UnidirectionalConnect e s' = Panic /\
     forall sender v c,
       SendMsgTo sender v c (connectionless e) s' = Panic /\
       ConnectEndpoint sender (connectionless e) s' = Panic).
Proof.
  intros He. split; [|split].
  - intros qr Hr. by apply (UnidirectionalConnect_receiver s e b).
  - intros Hr. split.
    + by apply (UnidirectionalConnect_nil_receiver s e b).
    + intros sender v c. split.
      * by apply (SendMsgTo_nil_receiver s sender e b).
      * by apply (ConnectEndpoint_nil_receiver s sender e b).
  - intros ce s' Hc Hclose.
    destruct (receiver b) as [qr|] eqn:Hr.
    2:{ by rewrite (Close_connected_no_receiver s e b ce) in Hclose. }
    destruct (queues s !! readQueue qr) as [Q|] eqn:Hq.
    2:{ unfold_ops. by rewrite He, Hc, He, Hr, Hq in Hclose. }
    rewrite (Close_connected s e b ce qr Q) in Hclose by done.
    injection Hclose as <-.
    set (b' := {| receiver := None; connected := None; path := "" |}).
    assert (Hb' : endpoints
              {| endpoints := <[e:=b']> (endpoints s);
                 queues := <[readQueue qr:=
                   {| dataList := dataList Q; limit := limit Q;
                      closed := true |}]> (queues s) |} !! e = Some b').
    { cbn. by rewrite lookup_insert_eq. }
    split.
    + by apply (UnidirectionalConnect_nil_receiver _ e b').
    + intros sender v c. split.
      * by apply (SendMsgTo_nil_receiver _ sender e b').
      * by apply (ConnectEndpoint_nil_receiver _ sender e b').
Qed.

Lemma UnidirectionalConnect_needs_receiver_witness :
  UnidirectionalConnect 0%nat s_pair = Ret handle0 s_pair /\
  (UnidirectionalConnect 1%nat s_closed = Panic /\
   forall sender v c,
     SendMsgTo sender v c (connectionless 1%nat) s_closed = Panic /\
     ConnectEndpoint sender (connectionless 1%nat) s_closed = Panic).
Proof.
  split.
  - apply (proj1 (UnidirectionalConnect_needs_receiver
                    s_pair 0%nat ep_bound eq_refl)
             {| readQueue := 10%nat |}).
    reflexivity.
  - apply (proj2 (proj2 (UnidirectionalConnect_needs_receiver
                           s_connected 1%nat ep_connected eq_refl))
             handle0 s_closed).
    + reflexivity.
    + vm_compute. reflexivity.
Defined.

(** Endpoint 1 of [s_connected] is closed, then endpoint 0 sends to
    it. *)
Example SendMsgTo_closed_destination :
  Close 1%nat s_connected = Ret tt s_closed /\
  SendMsgTo 0%nat hello None (connectionless 1%nat) s_closed = Panic.
Proof. split; vm_compute; reflexivity. Qed.

(** ** Bind *)

Lemma isBound_path (s : state) (e : loc) (b : baseEndpoint) :
  endpoints s !! e = Some b ->
  isBound e s = Ret (negb (String.eqb (path b) "")) s.
Proof. intros He. unfold_ops. by rewrite He. Qed.

(** C4.  [Bind] on a bound endpoint fails with [ErrAlreadyBound]; on an
    unbound endpoint with an empty address it fails with
    [ErrBadLocalAddress]; either way the store it returns is the store it
    was given (the callback is not run), so the endpoint is unchanged. *)
Theorem Bind_refused (s : state) (e : loc) (b : baseEndpoint)
    (addr : FullAddress) (commit : option (M error)) :
  endpoints s !! e = Some b ->
  (path b <> "" -> Bind e addr commit s = Ret (Some ErrAlreadyBound) s) /\
  (path b = "" -> Addr addr = "" ->
     Bind e addr commit s = Ret (Some ErrBadLocalAddress) s /\
     exists b', endpoints s !! e = Some b' /\ path b' = "").
Proof.
  intros He. split.
  - intros Hp. unfold Bind, bind. rewrite (isBound_path s e b He).
    apply eqb_empty_false in Hp. by rewrite Hp.
  - intros Hp Ha. split; [|by exists b].
    unfold Bind, bind. rewrite (isBound_path s e b He).
    rewrite Hp, Ha. reflexivity.
Qed.

Lemma Bind_refused_witness :
  Bind 0%nat {| Addr := "/s2" |} (Some commit_refuses) s_pair =
    Ret (Some ErrAlreadyBound) s_pair /\
  Bind 1%nat {| Addr := "" |} (Some commit_refuses) s_pair =
    Ret (Some ErrBadLocalAddress) s_pair /\
  exists b', endpoints s_pair !! 1%nat = Some b' /\ path b' = "".
Proof.
  split.
  - apply (proj1 (Bind_refused s_pair 0%nat ep_bound {| Addr := "/s2" |}
                    (Some commit_refuses) eq_refl)).
    vm_compute. discriminate.
  - apply (proj2 (Bind_refused s_pair 1%nat ep_unbound {| Addr := "" |}
                    (Some commit_refuses) eq_refl));
      reflexivity.
Defined.

(** C5.  On an unbound endpoint and a non-empty address, [Bind] runs the
    callback on the store it was given, in which [e] is still unbound.  If
    the callback answers an error, [Bind] returns that very error and the
    store as the callback left it, writing nothing itself: the endpoint is
    as it was whenever the callback did not touch it.  If the callback
    answers nil, or there is no callback, the address is written to the
    path, the other two fields stay, and [Bind] returns nil. *)
Theorem Bind_commit (s : state) (e : loc) (b : baseEndpoint)
    (addr : FullAddress) :
  endpoints s !! e = Some b ->
  path b = "" ->
  Addr addr <> "" ->
  (forall f x s1,
     f s = Ret (Some x) s1 ->
     Bind e addr (Some f) s = Ret (Some x) s1) /\
  (forall f s1 b1,
     f s = Ret None s1 ->
     endpoints s1 !! e = Some b1 ->
     Bind e addr (Some f) s =
     Ret None (set_endpoints (insert e (set_path (Addr addr) b1)) s1)) /\
  (forall f, f s = Panic -> Bind e addr (Some f) s = Panic) /\
  Bind e addr None s =
  Ret None (set_endpoints (insert e (set_path (Addr addr) b)) s).
Proof.
  intros He Hp Ha.
  assert (Hb : isBound e s = Ret false s).
  { rewrite (isBound_path s e b He), Hp. reflexivity. }
  apply eqb_empty_false in Ha.
  repeat split.
  - intros f x s1 Hf. unfold Bind, bind. rewrite Hb, Ha, Hf. reflexivity.
  - intros f s1 b1 Hf Hs1. unfold Bind, bind. rewrite Hb, Ha, Hf.
    unfold setf. rewrite Hs1. reflexivity.
  - intros f Hf. unfold Bind, bind. by rewrite Hb, Ha, Hf.
  - unfold Bind, bind. rewrite Hb, Ha. unfold ret, setf. by rewrite He.
Qed.

Lemma Bind_commit_witness :
  Bind 1%nat {| Addr := "/s2" |} (Some commit_refuses) s_pair =
    Ret (Some (ErrOther 13)) s_pair /\
  Bind 1%nat {| Addr := "/s2" |} (Some (ret None)) s_pair =
    Ret None
      (set_endpoints (insert 1%nat (set_path "/s2" ep_unbound)) s_pair) /\
  Bind 1%nat {| Addr := "/s2" |} None s_pair =
    Ret None
      (set_endpoints (insert 1%nat (set_path "/s2" ep_unbound)) s_pair).
Proof.
  assert (Hne : Addr {| Addr := "/s2" |} <> "") by (vm_compute; discriminate).
  pose proof (Bind_commit s_pair 1%nat ep_unbound {| Addr := "/s2" |}
                eq_refl eq_refl Hne) as (Herr & Hok & _ & Hnil).
  split; [|split].
  - apply (Herr commit_refuses (ErrOther 13) s_pair). reflexivity.
  - apply (Hok (ret None) s_pair ep_unbound); reflexivity.
  - exact Hnil.
Defined.

(** The callback runs before the path is written: a callback that looks at
    the endpoint being bound finds it unbound. *)
Example Bind_commit_sees_unbound :
  Bind 1%nat {| Addr := "/s2" |} (Some (commit_probe 1%nat)) s_pair =
  Ret None (set_endpoints (insert 1%nat (set_path "/s2" ep_unbound)) s_pair).
Proof. vm_compute. reflexivity. Qed.

(** ** SendMsgTo *)

Lemma SendMsgTo_incapable (s : state) (e : loc) (v : View)
    (c : ControlMessages) (to : Endpoint) :
  (forall l, to <> connectionless l) ->
  SendMsgTo e v c to s = Ret (0, Some ErrInvalidEndpointState) s.
Proof.
  intros Hto. destruct to as [|l|l]; try reflexivity.
  by destruct (Hto l).
Qed.

(** What [Enqueue] answers, case by case. *)
Lemma Enqueue_cases (s : state) (q : loc) (Q : Queue) (m : Message) :
  queues s !! q = Some Q ->
  (closed Q = true -> Enqueue q m s = Ret (Some ErrQueueClosed) s) /\
  (closed Q = false -> (limit Q <= length (dataList Q))%nat ->
     Enqueue q m s = Ret (Some ErrQueueFull) s) /\
  (closed Q = false -> (length (dataList Q) < limit Q)%nat ->
     Enqueue q m s =
     Ret None (set_queues
                 (insert q {| dataList := dataList Q ++ [m];
                              limit := limit Q; closed := false |}) s)).
Proof.
  intros Hq. unfold Enqueue. rewrite Hq. repeat split.
  - by intros ->.
  - intros -> Hfull. apply Nat.leb_le in Hfull. by rewrite Hfull.
  - intros Hc Hroom. rewrite Hc.
    destruct (Nat.leb_spec (limit Q) (length (dataList Q))); [lia|done].
Qed.

(** Every way [SendMsgTo] can return, read backwards. *)
Lemma SendMsgTo_Ret_inv (s s' : state) (e : loc) (v : View)
    (c : ControlMessages) (to : Endpoint) (n : Z) (err : error) :
  SendMsgTo e v c to s = Ret (n, err) s' ->
  (n = 0 /\ err = Some ErrInvalidEndpointState /\ s' = s /\
   forall l, to <> connectionless l) \/
  exists b l bl qr Q,
    to = connectionless l /\
    endpoints s !! e = Some b /\
    endpoints s !! l = Some bl /\
    receiver bl = Some qr /\
    queues s !! readQueue qr = Some Q /\
    ((n = 0 /\ err = Some ErrQueueClosed /\ s' = s /\ closed Q = true) \/
     (n = 0 /\ err = Some ErrQueueFull /\ s' = s /\ closed Q = false /\
      (limit Q <= length (dataList Q))%nat) \/
     (n = uintptr (len v) /\ err = None /\ closed Q = false /\
      (length (dataList Q) < limit Q)%nat /\
      s' = set_queues
             (insert (readQueue qr)
                {| dataList := dataList Q ++ [sentMessage v c (path b)];
                   limit := limit Q; closed := false |}) s)).
Proof.
  intros H. destruct to as [|l|l].
  - left. cbn in H. injection H as <- <- <-. by repeat split.
  - right.
    destruct (endpoints s !! l) as [bl|] eqn:Hl.
    2:{ unfold_ops. by rewrite Hl in H. }
    destruct (receiver bl) as [qr|] eqn:Hr.
    2:{ by rewrite (SendMsgTo_nil_receiver s e l bl) in H. }
    destruct (endpoints s !! e) as [b|] eqn:He.
    2:{ unfold_ops. by rewrite Hl, Hr, He in H. }
    rewrite (SendMsgTo_Enqueue s e l b bl qr) in H by done.
    destruct (queues s !! readQueue qr) as [Q|] eqn:Hq.
    2:{ unfold Enqueue in H. by rewrite Hq in H. }
    exists b, l, bl, qr, Q. repeat (split; [done|]).
    destruct (Enqueue_cases s (readQueue qr) Q (sentMessage v c (path b)) Hq)
      as (Hclosed & Hfull & Hroom).
    destruct (closed Q) eqn:Hc.
    + rewrite Hclosed in H by done. injection H as <- <- <-. by left.
    + destruct (Nat.leb_spec (limit Q) (length (dataList Q))) as [Hle|Hlt].
      * rewrite Hfull in H by done. injection H as <- <- <-.
        right; left. by repeat split.
      * rewrite Hroom in H by done. injection H as <- <- <-.
        right; right. by repeat split.
  - left. cbn in H. injection H as <- <- <-. by repeat split.
Qed.

(** C6.  A destination that is not a connectionless endpoint is answered
    with 0 bytes and [ErrInvalidEndpointState]; whenever [SendMsgTo]
    returns an error at all, the byte count is 0 and the store is the one
    it was given, so nothing was enqueued anywhere; a closed destination
    queue and a full one are such failures. *)
Theorem SendMsgTo_failed (s : state) (e : loc) (v : View)
    (c : ControlMessages) (to : Endpoint) :
  ((forall l, to <> connectionless l) ->
     SendMsgTo e v c to s = Ret (0, Some ErrInvalidEndpointState) s) /\
  (forall n x s',
     SendMsgTo e v c to s = Ret (n, Some x) s' -> n = 0 /\ s' = s) /\
  (forall b l bl qr Q,
     to = connectionless l ->
     endpoints s !! e = Some b ->
     endpoints s !! l = Some bl ->
     receiver bl = Some qr ->
     queues s !! readQueue qr = Some Q ->
     (closed Q = true ->
        SendMsgTo e v c to s = Ret (0, Some ErrQueueClosed) s) /\
     (closed Q = false -> (limit Q <= length (dataList Q))%nat ->
        SendMsgTo e v c to s = Ret (0, Some ErrQueueFull) s)).
Proof.
  split; [|split].
  - apply SendMsgTo_incapable.
  - intros n x s' H.
    apply SendMsgTo_Ret_inv in H
      as [(-> & _ & -> & _) | (b & l & bl & qr & Q & _ & _ & _ & _ & _ & H)];
      [done|].
    destruct H as [(-> & _ & -> & _) | [(-> & _ & -> & _) | (_ & ? & _)]];
      done.
  - intros b l bl qr Q -> He Hl Hr Hq.
    rewrite (SendMsgTo_Enqueue s e l b bl qr) by done.
    destruct (Enqueue_cases s (readQueue qr) Q (sentMessage v c (path b)) Hq)
      as (Hclosed & Hfull & _).
    split.
    + intros Hc. by rewrite Hclosed.
    + intros Hc Hle. by rewrite Hfull.
Qed.

Lemma SendMsgTo_failed_witness :
  SendMsgTo 1%nat hello None (otherEndpoint 0%nat) s_pair =
    Ret (0, Some ErrInvalidEndpointState) s_pair /\
  SendMsgTo 1%nat hello None (connectionless 0%nat) s_full =
    Ret (0, Some ErrQueueFull) s_full /\
  SendMsgTo 0%nat hello None (connectionless 1%nat)
    (set_queues (insert 11%nat q_closed) s_pair) =
    Ret (0, Some ErrQueueClosed) (set_queues (insert 11%nat q_closed) s_pair).
Proof.
  split; [|split].
  - apply (proj1 (SendMsgTo_failed s_pair 1%nat hello None
                    (otherEndpoint 0%nat))).
    intros l. discriminate.
  - apply (proj2 (proj2 (SendMsgTo_failed s_full 1%nat hello None
                           (connectionless 0%nat)))
             ep_unbound 0%nat ep_bound {| readQueue := 10%nat |} q_full);
      reflexivity.
  - apply (proj2 (proj2 (SendMsgTo_failed
                           (set_queues (insert 11%nat q_closed) s_pair)
                           0%nat hello None (connectionless 1%nat)))
             ep_bound 1%nat ep_unbound {| readQueue := 11%nat |} q_closed);
      reflexivity.
Defined.

Lemma uintptr_len (v : View) : len v <= maxInt -> uintptr (len v) = len v.
Proof.
  unfold uintptr, len, maxInt. intros H.
  apply Z.mod_small. lia.
Qed.

(** [SendMsgTo] into a destination queue that is open and has room. *)
Lemma SendMsgTo_room (s : state) (e l : loc) (b bl : baseEndpoint)
    (qr : queueReceiver) (Q : Queue) (v : View) (c : ControlMessages) :
  endpoints s !! e = Some b ->
  endpoints s !! l = Some bl ->
  receiver bl = Some qr ->
  queues s !! readQueue qr = Some Q ->
  closed Q = false ->
  (length (dataList Q) < limit Q)%nat ->
  SendMsgTo e v c (connectionless l) s =
  Ret (uintptr (len v), None)
    (set_queues
       (insert (readQueue qr)
          {| dataList := dataList Q ++ [sentMessage v c (path b)];
             limit := limit Q; closed := false |}) s).
Proof.
  intros He Hl Hr Hq Hc Hroom.
  rewrite (SendMsgTo_Enqueue s e l b bl qr) by done.
  destruct (Enqueue_cases s (readQueue qr) Q (sentMessage v c (path b)) Hq)
    as (_ & _ & Hok).
  by rewrite Hok.
Qed.

(** C7.  A sender [e] sends a payload of length [len v] to a connectionless
    destination whose queue is open and has room: the call returns
    [len v] and nil, and the store it leaves is the given store with one
    message appended to the destination queue, whole: the payload, the
    control data and the sender's path.  The messages that were pending
    stay in front of it, so the pending count goes up by exactly one;
    no endpoint and no other queue changes. *)
Theorem SendMsgTo_delivers (s : state) (e l : loc) (b bl : baseEndpoint)
    (qr : queueReceiver) (Q : Queue) (v : View) (c : ControlMessages) :
  endpoints s !! e = Some b ->
  endpoints s !! l = Some bl ->
  receiver bl = Some qr ->
  queues s !! readQueue qr = Some Q ->
  closed Q = false ->
  (length (dataList Q) < limit Q)%nat ->
  len v <= maxInt ->
  exists s',
    SendMsgTo e v c (connectionless l) s = Ret (len v, None) s' /\
    s' = {| endpoints := endpoints s;
            queues :=
              <[readQueue qr :=
                  {| dataList :=
                       dataList Q ++
                       [{| Data := v; Control := c;
                           Address := {| Addr := path b |} |}];
                     limit := limit Q;
                     closed := false |}]> (queues s) |} /\
    messages (readQueue qr) s = Some (dataList Q) /\
    messages (readQueue qr) s' =
      Some (dataList Q ++ [{| Data := v; Control := c;
                              Address := {| Addr := path b |} |}]) /\
    pending (readQueue qr) s = Some (length (dataList Q)) /\
    pending (readQueue qr) s' = Some (S (length (dataList Q))) /\
    (forall q, q <> readQueue qr -> queues s' !! q = queues s !! q).
Proof.
  intros He Hl Hr Hq Hc Hroom Hlen.
  eexists. split.
  { rewrite <- (uintptr_len v Hlen).
    by apply (SendMsgTo_room s e l b bl qr Q). }
  split; [reflexivity|].
  unfold messages, pending. store_simpl.
  rewrite Hq, lookup_insert_eq. cbn.
  repeat split.
  - rewrite length_app. cbn. f_equal. lia.
  - intros q Hne. by rewrite lookup_insert_ne.
Qed.

Lemma SendMsgTo_delivers_witness :
  exists s',
    SendMsgTo 1%nat hello None (connectionless 0%nat) s_pair =
      Ret (len hello, None) s' /\
    s' = {| endpoints := endpoints s_pair;
            queues :=
              <[readQueue {| readQueue := 10%nat |} :=
                  {| dataList :=
                       dataList q_empty ++
                       [{| Data := hello; Control := None;
                           Address := {| Addr := path ep_unbound |} |}];
                     limit := limit q_empty;
                     closed := false |}]> (queues s_pair) |} /\
    messages (readQueue {| readQueue := 10%nat |}) s_pair =
      Some (dataList q_empty) /\
    messages (readQueue {| readQueue := 10%nat |}) s' =
      Some (dataList q_empty ++
            [{| Data := hello; Control := None;
                Address := {| Addr := path ep_unbound |} |}]) /\
    pending (readQueue {| readQueue := 10%nat |}) s_pair =
      Some (length (dataList q_empty)) /\
    pending (readQueue {| readQueue := 10%nat |}) s' =
      Some (S (length (dataList q_empty))) /\
    (forall q, q <> readQueue {| readQueue := 10%nat |} ->
       queues s' !! q = queues s_pair !! q).
Proof.
  apply (SendMsgTo_delivers s_pair 1%nat 0%nat ep_unbound ep_bound
           {| readQueue := 10%nat |} q_empty hello None);
    try reflexivity.
  - vm_compute. lia.
  - vm_compute. discriminate.
Defined.

(** Conversely, a [SendMsgTo] that returns nil has enqueued one message. *)
Lemma SendMsgTo_success_inv (s s' : state) (e : loc) (v : View)
    (c : ControlMessages) (to : Endpoint) (n : Z) :
  SendMsgTo e v c to s = Ret (n, None) s' ->
  exists b l bl qr Q,
    to = connectionless l /\
    endpoints s !! e = Some b /\
    endpoints s !! l = Some bl /\
    receiver bl = Some qr /\
    queues s !! readQueue qr = Some Q /\
    n = uintptr (len v) /\
    s' = set_queues
           (insert (readQueue qr)
              {| dataList := dataList Q ++ [sentMessage v c (path b)];
                 limit := limit Q; closed := false |}) s.
Proof.
  intros H.
  apply SendMsgTo_Ret_inv in H
    as [(_ & ? & _) | (b & l & bl & qr & Q & ? & ? & ? & ? & ? & H)]; [done|].
  destruct H as [(_ & ? & _) | [(_ & ? & _) | (-> & _ & _ & _ & ->)]];
    try done.
  by exists b, l, bl, qr, Q.
Qed.

(** C8.  Whenever a [SendMsgTo] by sender [e] succeeds, the message
    appended to the destination queue carries the payload and the control
    data given and, as its address, the sender's path when the sender is
    bound, and the zero address (no source address) when it is unbound. *)
Theorem SendMsgTo_source_address (s s' : state) (e : loc)
    (b : baseEndpoint) (v : View) (c : ControlMessages) (to : Endpoint)
    (n : Z) :
  endpoints s !! e = Some b ->
  SendMsgTo e v c to s = Ret (n, None) s' ->
  exists l bl qr old m,
    to = connectionless l /\
    endpoints s !! l = Some bl /\
    receiver bl = Some qr /\
    messages (readQueue qr) s = Some old /\
    messages (readQueue qr) s' = Some (old ++ [m]) /\
    Data m = v /\ Control m = c /\
    (path b <> "" -> Address m = {| Addr := path b |}) /\
    (path b = "" -> Address m = zeroFullAddress).
Proof.
  intros He H.
  apply SendMsgTo_success_inv in H
    as (b0 & l & bl & qr & Q & -> & He0 & Hl & Hr & Hq & _ & ->).
  rewrite He in He0. injection He0 as <-.
  exists l, bl, qr, (dataList Q), (sentMessage v c (path b)).
  repeat split; try done.
  - unfold messages. by rewrite Hq.
  - unfold messages. store_simpl. by rewrite lookup_insert_eq.
  - intros Hp. cbn. by rewrite Hp.
Qed.

Lemma SendMsgTo_source_address_witness :
  (exists l bl qr old m,
     connectionless 1%nat = connectionless l /\
     endpoints s_pair !! l = Some bl /\
     receiver bl = Some qr /\
     messages (readQueue qr) s_pair = Some old /\
     messages (readQueue qr)
       (set_queues
          (insert 11%nat
             {| dataList := [sentMessage hello None "/s1"];
                limit := 2; closed := false |}) s_pair) =
       Some (old ++ [m]) /\
     Data m = hello /\ Control m = None /\
     (path ep_bound <> "" -> Address m = {| Addr := path ep_bound |}) /\
     (path ep_bound = "" -> Address m = zeroFullAddress)).
Proof.
  apply (SendMsgTo_source_address s_pair _ 0%nat ep_bound hello None
           (connectionless 1%nat) 5).
  - reflexivity.
  - vm_compute. reflexivity.
Defined.

(** The two cases of C8 run: the bound endpoint 0 stamps "/s1", the
    unbound endpoint 1 stamps nothing. *)
Example SendMsgTo_from_bound :
  exists s', SendMsgTo 0%nat hello None (connectionless 1%nat) s_pair =
               Ret (5, None) s' /\
             messages 11%nat s' =
               Some [{| Data := hello; Control := None;
                        Address := {| Addr := "/s1" |} |}].
Proof. eexists. split; vm_compute; reflexivity. Qed.

Example SendMsgTo_from_unbound :
  exists s', SendMsgTo 1%nat hello None (connectionless 0%nat) s_pair =
               Ret (5, None) s' /\
             messages 10%nat s' =
               Some [{| Data := hello; Control := None;
                        Address := zeroFullAddress |}].
Proof. eexists. split; vm_compute; reflexivity. Qed.

(** ** ConnectEndpoint *)

(** C9.  [ConnectEndpoint] to a server that is not a connectionless
    endpoint fails with [ErrConnectionRefused] and returns the store it
    was given, so the peer slot keeps whatever it held.  To a
    connectionless server with its receiver present it returns nil and
    stores the freshly minted handle in the peer slot whatever was there
    before; the path and the receiver slot of the caller are as they were
    in both cases. *)
Theorem ConnectEndpoint_peer_slot (s : state) (e : loc) (b : baseEndpoint)
    (server : Endpoint) :
  endpoints s !! e = Some b ->
  ((forall l, server <> connectionless l) ->
     ConnectEndpoint e server s = Ret (Some ErrConnectionRefused) s) /\
  (forall l bl qr,
     server = connectionless l ->
     endpoints s !! l = Some bl ->
     receiver bl = Some qr ->
     ConnectEndpoint e server s =
     Ret None
       (set_endpoints
          (insert e
             {| receiver := receiver b;
                connected :=
                  Some {| endpoint := connectionless l;
                          writeQueue := readQueue qr |};
                path := path b |}) s)).
Proof.
  intros He. split.
  - intros Hs. destruct server as [|l|l]; try reflexivity.
    by destruct (Hs l).
  - intros l bl qr -> Hl Hr. unfold ConnectEndpoint, bind.
    rewrite (UnidirectionalConnect_receiver s l bl qr) by done.
    unfold setf. rewrite He. reflexivity.
Qed.

Lemma ConnectEndpoint_peer_slot_witness :
  ConnectEndpoint 1%nat (otherEndpoint 0%nat) s_connected =
    Ret (Some ErrConnectionRefused) s_connected /\
  ConnectEndpoint 1%nat (connectionless 1%nat) s_connected =
    Ret None
      (set_endpoints
         (insert 1%nat
            {| receiver := Some {| readQueue := 11%nat |};
               connected :=
                 Some {| endpoint := connectionless 1%nat;
                         writeQueue := 11%nat |};
               path := "" |}) s_connected).
Proof.
  split.
  - apply (proj1 (ConnectEndpoint_peer_slot s_connected 1%nat ep_connected
                    (otherEndpoint 0%nat) eq_refl)).
    intros l. discriminate.
  - apply (proj2 (ConnectEndpoint_peer_slot s_connected 1%nat ep_connected
                    (connectionless 1%nat) eq_refl)
             1%nat ep_connected {| readQueue := 11%nat |});
      reflexivity.
Defined.

(** ** Readiness *)

Lemma land_lor_EventOut (ready : Z) :
  Z.land ready EventOut = 0 ->
  Z.land (Z.lor ready EventOut) EventOut <> 0.
Proof.
  intros H. rewrite Z.land_lor_distr_l, H. discriminate.
Qed.

(** The readable half of [Readiness] on an endpoint whose receiver and
    queue are present. *)
Lemma readable_half_open (s : state) (e : loc) (b : baseEndpoint)
    (qr : queueReceiver) (Q : Queue) (mask : Z) :
  endpoints s !! e = Some b ->
  receiver b = Some qr ->
  queues s !! readQueue qr = Some Q ->
  exists rd,
    andThen (negb (Z.land mask EventIn =? 0))
      (r <- getf e receiver ;; Readable r) s = Ret rd s.
Proof.
  intros He Hr Hq. unfold_ops.
  destruct (negb _); [|by eexists].
  rewrite He, Hr, Hq. by eexists.
Qed.

(** C10.  On an open endpoint (receiver and its queue present)
    [Readiness] returns and leaves the store alone.  With no default peer
    the answer never has the writable bit, whatever the mask.  With a
    default peer the writable bit is answered exactly when the mask asks
    for it and the peer's queue is writable, and then that queue has
    room. *)
Theorem Readiness_writable (s : state) (e : loc) (b : baseEndpoint)
    (qr : queueReceiver) (Q : Queue) (mask : Z) :
  endpoints s !! e = Some b ->
  receiver b = Some qr ->
  queues s !! readQueue qr = Some Q ->
  (connected b = None ->
     exists m, Readiness e mask s = Ret m s /\ Z.land m EventOut = 0) /\
  (forall ce W,
     connected b = Some ce ->
     queues s !! writeQueue ce = Some W ->
     exists m,
       Readiness e mask s = Ret m s /\
       (Z.land m EventOut <> 0 <->
        Z.land mask EventOut <> 0 /\
        IsWritable (writeQueue ce) s = Ret true s) /\
       (Z.land m EventOut <> 0 ->
        (length (dataList W) < limit W)%nat)).
Proof.
  intros He Hr Hq.
  destruct (readable_half_open s e b qr Q mask He Hr Hq) as [rd Hrd].
  assert (Hready : Z.land (if rd then Z.lor 0 EventIn else 0) EventOut = 0).
  { by destruct rd. }
  split.
  - intros Hc. exists (if rd then Z.lor 0 EventIn else 0). split; [|done].
    unfold Readiness. unfold bind at 1. rewrite Hrd.
    unfold_ops. by rewrite He, Hc.
  - intros ce W Hc HW.
    unfold Readiness. unfold bind at 1. rewrite Hrd.
    unfold Connected, IsWritable, bind, getf, ret. rewrite He, Hc.
    unfold andThen, Writable, IsWritable, ret. rewrite HW.
    destruct (Z.eqb_spec (Z.land mask EventOut) 0) as [Hm|Hm]; cbn [negb].
    + eexists. split; [reflexivity|]. split.
      * split; [by intros ?|]. by intros [? _].
      * by intros ?.
    + rewrite He, Hc, HW.
      destruct (negb (closed W) && (length (dataList W) <? limit W)%nat)
        eqn:Hw.
      * eexists. split; [reflexivity|]. split.
        -- split; [done|]. intros _. by apply land_lor_EventOut.
        -- intros _. apply andb_prop in Hw as [_ Hw].
           by apply Nat.ltb_lt in Hw.
      * eexists. split; [reflexivity|]. split.
        -- split; [done|]. by intros [_ ?].
        -- done.
Qed.

Lemma Readiness_writable_witness :
  (exists m, Readiness 1%nat 5 s_pair = Ret m s_pair /\
             Z.land m EventOut = 0) /\
  (exists m,
     Readiness 1%nat 5 s_connected = Ret m s_connected /\
     (Z.land m EventOut <> 0 <->
      Z.land 5 EventOut <> 0 /\
      IsWritable (writeQueue handle0) s_connected = Ret true s_connected) /\
     (Z.land m EventOut <> 0 ->
      (length (dataList q_empty) < limit q_empty)%nat)).
Proof.
  split.
  - apply (proj1 (Readiness_writable s_pair 1%nat ep_unbound
                    {| readQueue := 11%nat |} q_empty 5
                    eq_refl eq_refl eq_refl)).
    reflexivity.
  - apply (proj2 (Readiness_writable s_connected 1%nat ep_connected
                    {| readQueue := 11%nat |} q_empty 5
                    eq_refl eq_refl eq_refl)
             handle0 q_empty);
      reflexivity.
Defined.

(** The three answers of [Readiness] to a mask with both bits: no peer,
    a peer whose queue has room, a peer whose queue is full. *)
Example Readiness_no_peer : Readiness 1%nat 5 s_pair = Ret 0 s_pair.
Proof. vm_compute. reflexivity. Qed.

Example Readiness_peer_room :
  Readiness 1%nat 5 s_connected = Ret EventOut s_connected.
Proof. vm_compute. reflexivity. Qed.

Example Readiness_peer_full :
  Readiness 1%nat 5 (set_queues (insert 10%nat q_full) s_connected) =
  Ret 0 (set_queues (insert 10%nat q_full) s_connected).
Proof. vm_compute. reflexivity. Qed.

(** ** A run through the operations *)

Example scenario_run :
  exists s',
    scenario {| endpoints := ∅; queues := ∅ |} =
    Ret ([(5, None); (5, None); (0, Some ErrQueueFull)],
         Some [sentMessage hello None ""; sentMessage world None ""]) s'.
Proof. eexists. vm_compute. reflexivity. Qed.

(** * Further properties of connectionless.go *)

(** ** Close, again *)

(** The two ways [Close] can return. *)
Lemma Close_Ret_cases (s s' : state) (e : loc) (b : baseEndpoint) :
  endpoints s !! e = Some b ->
  Close e s = Ret tt s' ->
  (connected b = None /\
   s' = set_endpoints (insert e (set_path "" b)) s) \/
  (exists ce qr Q,
     connected b = Some ce /\
     receiver b = Some qr /\
     queues s !! readQueue qr = Some Q /\
     s' = {| endpoints :=
               <[e := {| receiver := None; connected := None;
                         path := "" |}]> (endpoints s);
             queues :=
               <[readQueue qr := {| dataList := dataList Q;
                                    limit := limit Q;
                                    closed := true |}]> (queues s) |}).
Proof.
  intros He H.
  destruct (connected b) as [ce|] eqn:Hc.
  - right.
    destruct (receiver b) as [qr|] eqn:Hr.
    2:{ by rewrite (Close_connected_no_receiver s e b ce) in H. }
    destruct (queues s !! readQueue qr) as [Q|] eqn:Hq.
    2:{ unfold_ops. by rewrite He, Hc, He, Hr, Hq in H. }
    rewrite (Close_connected s e b ce qr Q) in H by done.
    injection H as <-. by exists ce, qr, Q.
  - left. rewrite (Close_unconnected s e b) in H by done.
    injection H as <-. done.
Qed.

(** On an endpoint with no peer and no path, [Close] does nothing. *)
Lemma Close_noop (s : state) (e : loc) (b : baseEndpoint) :
  endpoints s !! e = Some b ->
  connected b = None ->
  path b = "" ->
  Close e s = Ret tt s.
Proof.
  intros He Hc Hp. rewrite (Close_unconnected s e b) by done.
  f_equal. unfold set_endpoints, set_path. rewrite <- Hp, baseEndpoint_eta.
  rewrite insert_id by done. apply state_eta.
Qed.

(** A second [Close] changes nothing: it returns, and the store is the
    one the first [Close] left. *)
Theorem Close_twice (s s' : state) (e : loc) :
  Close e s = Ret tt s' ->
  Close e s' = Ret tt s'.
Proof.
  intros H. apply Close_Ret_inv in H as (b' & Hb' & Hc' & Hp').
  by apply (Close_noop s' e b').
Qed.

Lemma Close_twice_witness : Close 1%nat s_closed = Ret tt s_closed.
Proof.
  apply (Close_twice s_connected s_closed 1%nat).
  vm_compute. reflexivity.
Defined.

(** [Close] on [e] touches no other endpoint, and no queue but the one
    the receiver of [e] references: the queue behind the default peer,
    when it is another queue, stays as it was. *)
Theorem Close_frame (s s' : state) (e : loc) (b : baseEndpoint) :
  endpoints s !! e = Some b ->
  Close e s = Ret tt s' ->
  (forall e', e' <> e -> endpoints s' !! e' = endpoints s !! e') /\
  (forall q, receiver b <> Some {| readQueue := q |} ->
     queues s' !! q = queues s !! q) /\
  (forall ce, connected b = Some ce ->
     receiver b <> Some {| readQueue := writeQueue ce |} ->
     queues s' !! writeQueue ce = queues s !! writeQueue ce).
Proof.
  intros He H.
  assert (Hq : forall q, receiver b <> Some {| readQueue := q |} ->
                queues s' !! q = queues s !! q).
  { intros q Hne.
    destruct (Close_Ret_cases s s' e b He H)
      as [(_ & ->) | (ce & qr & Q & _ & Hr & _ & ->)]; [done|].
    cbn. apply lookup_insert_ne. intros <-. apply Hne.
    rewrite Hr. by destruct qr. }
  split; [|split].
  - intros e' Hne.
    destruct (Close_Ret_cases s s' e b He H)
      as [(_ & ->) | (ce & qr & Q & _ & _ & _ & ->)];
      cbn; by rewrite lookup_insert_ne.
  - exact Hq.
  - intros ce _ Hne. by apply Hq.
Qed.

Lemma Close_frame_witness :
  (forall e', e' <> 1%nat ->
     endpoints s_closed !! e' = endpoints s_connected !! e') /\
  (forall q, receiver ep_connected <> Some {| readQueue := q |} ->
     queues s_closed !! q = queues s_connected !! q) /\
  (forall ce, connected ep_connected = Some ce ->
     receiver ep_connected <> Some {| readQueue := writeQueue ce |} ->
     queues s_closed !! writeQueue ce = queues s_connected !! writeQueue ce).
Proof.
  apply (Close_frame s_connected s_closed 1%nat ep_connected).
  - reflexivity.
  - vm_compute. reflexivity.
Defined.

(** ** Bind, again *)

(** [Bind] without a callback on an unbound endpoint. *)
Lemma Bind_unbound_nil (s : state) (e : loc) (b : baseEndpoint)
    (addr : FullAddress) :
  endpoints s !! e = Some b ->
  path b = "" ->
  Addr addr <> "" ->
  Bind e addr None s =
  Ret None (set_endpoints (insert e (set_path (Addr addr) b)) s).
Proof.
  intros He Hp Ha. apply eqb_empty_false in Ha.
  unfold Bind, bind. rewrite (isBound_path s e b He), Hp, Ha.
  cbn. unfold ret, setf. by rewrite He.
Qed.

(** A [Bind] that returns nil, read backwards: the endpoint was unbound,
    the address is not empty, the callback (if any) answered nil, and the
    path was written on the store the callback left. *)
Lemma Bind_success_inv (s s1 : state) (e : loc) (addr : FullAddress)
    (commit : option (M error)) :
  Bind e addr commit s = Ret None s1 ->
  Addr addr <> "" /\
  exists b s0 b0,
    endpoints s !! e = Some b /\ path b = "" /\
    match commit with
    | Some f => f s = Ret None s0
    | None => s0 = s
    end /\
    endpoints s0 !! e = Some b0 /\
    s1 = set_endpoints (insert e (set_path (Addr addr) b0)) s0.
Proof.
  intros H. unfold Bind, bind in H.
  destruct (endpoints s !! e) as [b|] eqn:He.
  2:{ unfold isBound, bind, getf in H. by rewrite He in H. }
  rewrite (isBound_path s e b He) in H.
  destruct (String.eqb (path b) "") eqn:Hp; [|done]. cbn in H.
  apply eqb_empty_true in Hp.
  destruct (String.eqb (Addr addr) "") eqn:Ha; [done|].
  apply eqb_empty_false in Ha. split; [done|].
  destruct commit as [f|].
  - destruct (f s) as [[x|] s0|] eqn:Hf; try done.
    unfold setf, ret in H.
    destruct (endpoints s0 !! e) as [b0|] eqn:He0; [|done].
    injection H as <-. by exists b, s0, b0.
  - unfold setf, ret in H. rewrite He in H. injection H as <-.
    by exists b, s, b.
Qed.

(** Once [Bind] has succeeded, any further [Bind] on the endpoint fails
    with [ErrAlreadyBound], whatever address and callback it is given, and
    leaves the store alone. *)
Theorem Bind_twice (s s1 : state) (e : loc) (addr addr' : FullAddress)
    (commit commit' : option (M error)) :
  Bind e addr commit s = Ret None s1 ->
  Bind e addr' commit' s1 = Ret (Some ErrAlreadyBound) s1.
Proof.
  intros H.
  apply Bind_success_inv in H
    as (Ha & b & s0 & b0 & _ & _ & _ & He0 & ->).
  unfold Bind, bind.
  rewrite (isBound_path _ e (set_path (Addr addr) b0)).
  2:{ cbn. by rewrite lookup_insert_eq. }
  cbn. apply eqb_empty_false in Ha. by rewrite Ha.
Qed.

Lemma Bind_twice_witness :
  Bind 1%nat {| Addr := "/s3" |} (Some commit_refuses)
    (set_endpoints (insert 1%nat (set_path "/s2" ep_unbound)) s_pair) =
  Ret (Some ErrAlreadyBound)
    (set_endpoints (insert 1%nat (set_path "/s2" ep_unbound)) s_pair).
Proof.
  apply (Bind_twice s_pair _ 1%nat {| Addr := "/s2" |} {| Addr := "/s3" |}
           None (Some commit_refuses)).
  vm_compute. reflexivity.
Defined.

(** [Close] undoes [Bind]: on an unbound endpoint with no default peer,
    binding to a non-empty address and closing gives back the very store
    one started from. *)
Theorem Bind_then_Close (s : state) (e : loc) (b : baseEndpoint)
    (addr : FullAddress) :
  endpoints s !! e = Some b ->
  connected b = None ->
  path b = "" ->
  Addr addr <> "" ->
  exists s1, Bind e addr None s = Ret None s1 /\ Close e s1 = Ret tt s.
Proof.
  intros He Hc Hp Ha. eexists. split.
  - by apply Bind_unbound_nil.
  - rewrite (Close_unconnected _ e (set_path (Addr addr) b)).
    + f_equal. store_simpl. rewrite insert_insert_eq.
      rewrite <- Hp, baseEndpoint_eta, insert_id by done.
      apply state_eta.
    + cbn. by rewrite lookup_insert_eq.
    + done.
Qed.

Lemma Bind_then_Close_witness :
  exists s1, Bind 1%nat {| Addr := "/s2" |} None s_pair = Ret None s1 /\
             Close 1%nat s1 = Ret tt s_pair.
Proof.
  apply (Bind_then_Close s_pair 1%nat ep_unbound {| Addr := "/s2" |});
    try reflexivity.
  vm_compute. discriminate.
Defined.

(** After [Close] the endpoint can be bound again: [Bind] to a non-empty
    address without a callback succeeds and writes the path. *)
Theorem Bind_after_Close (s s' : state) (e : loc) (addr : FullAddress) :
  Close e s = Ret tt s' ->
  Addr addr <> "" ->
  exists b',
    endpoints s' !! e = Some b' /\
    Bind e addr None s' =
    Ret None (set_endpoints (insert e (set_path (Addr addr) b')) s').
Proof.
  intros H Ha. apply Close_Ret_inv in H as (b' & Hb' & _ & Hp').
  exists b'. split; [done|]. by apply Bind_unbound_nil.
Qed.

Lemma Bind_after_Close_witness :
  exists b',
    endpoints s_closed !! 1%nat = Some b' /\
    Bind 1%nat {| Addr := "/s2" |} None s_closed =
    Ret None (set_endpoints (insert 1%nat (set_path "/s2" b')) s_closed).
Proof.
  apply (Bind_after_Close s_connected s_closed 1%nat {| Addr := "/s2" |}).
  - vm_compute. reflexivity.
  - vm_compute. discriminate.
Defined.

(** Binding and sending compose: once [Bind] to [addr] has succeeded,
    every message the endpoint then delivers carries [addr]. *)
Theorem Bind_then_SendMsgTo (s s1 s2 : state) (e : loc)
    (addr : FullAddress) (commit : option (M error)) (v : View)
    (c : ControlMessages) (to : Endpoint) (n : Z) :
  Bind e addr commit s = Ret None s1 ->
  SendMsgTo e v c to s1 = Ret (n, None) s2 ->
  exists l bl qr old,
    to = connectionless l /\
    endpoints s1 !! l = Some bl /\
    receiver bl = Some qr /\
    messages (readQueue qr) s1 = Some old /\
    messages (readQueue qr) s2 =
      Some (old ++ [{| Data := v; Control := c;
                       Address := {| Addr := Addr addr |} |}]).
Proof.
  intros Hb Hs.
  apply Bind_success_inv in Hb
    as (_ & b & s0 & b0 & _ & _ & _ & He0 & ->).
  apply SendMsgTo_success_inv in Hs
    as (b1 & l & bl & qr & Q & -> & He & Hl & Hr & Hq & _ & ->).
  cbn in He. rewrite lookup_insert_eq in He. injection He as <-.
  exists l, bl, qr, (dataList Q). repeat split; try done.
  - unfold messages. by rewrite Hq.
  - unfold messages. store_simpl. by rewrite lookup_insert_eq.
Qed.

Lemma Bind_then_SendMsgTo_witness :
  exists l bl qr old,
    connectionless 0%nat = connectionless l /\
    endpoints
      (set_endpoints (insert 1%nat (set_path "/s2" ep_unbound)) s_pair)
      !! l = Some bl /\
    receiver bl = Some qr /\
    messages (readQueue qr)
      (set_endpoints (insert 1%nat (set_path "/s2" ep_unbound)) s_pair) =
      Some old /\
    messages (readQueue qr)
      (set_queues
         (insert 10%nat
            {| dataList := [sentMessage hello None "/s2"];
               limit := 2; closed := false |})
         (set_endpoints (insert 1%nat (set_path "/s2" ep_unbound)) s_pair)) =
      Some (old ++ [{| Data := hello; Control := None;
                       Address := {| Addr := "/s2" |} |}]).
Proof.
  apply (Bind_then_SendMsgTo s_pair _ _ 1%nat {| Addr := "/s2" |} None
           hello None (connectionless 0%nat) 5).
  - vm_compute. reflexivity.
  - vm_compute. reflexivity.
Defined.

(** ** SendMsgTo, again *)

(** Whatever it returns, [SendMsgTo] changes no endpoint (the handle it
    mints is not stored anywhere), closes and resizes no queue, and drops
    or reorders no pending message: every queue keeps its messages as a
    prefix and gains at most one. *)
Theorem SendMsgTo_frame (s s' : state) (e : loc) (v : View)
    (c : ControlMessages) (to : Endpoint) (r : Z * error) :
  SendMsgTo e v c to s = Ret r s' ->
  endpoints s' = endpoints s /\
  forall q Q,
    queues s !! q = Some Q ->
    exists Q' tail,
      queues s' !! q = Some Q' /\
      limit Q' = limit Q /\
      closed Q' = closed Q /\
      dataList Q' = dataList Q ++ tail /\
      (length tail <= 1)%nat.
Proof.
  intros H. destruct r as [n err].
  assert (Hsame : s' = s ->
            endpoints s' = endpoints s /\
            forall q Q, queues s !! q = Some Q ->
              exists Q' tail,
                queues s' !! q = Some Q' /\ limit Q' = limit Q /\
                closed Q' = closed Q /\ dataList Q' = dataList Q ++ tail /\
                (length tail <= 1)%nat).
  { intros ->. split; [done|]. intros q Q Hq. exists Q, [].
    rewrite app_nil_r. repeat split; try done. cbn. lia. }
  apply SendMsgTo_Ret_inv in H
    as [(_ & _ & Hs & _) | (b & l & bl & qr & Q0 & _ & _ & _ & _ & Hq0 & H)];
    [by apply Hsame|].
  destruct H as [(_ & _ & Hs & _) | [(_ & _ & Hs & _) | H]];
    [by apply Hsame | by apply Hsame |].
  destruct H as (_ & _ & Hc & _ & ->). split; [done|].
  intros q Q Hq. cbn.
  destruct (decide (q = readQueue qr)) as [->|Hne].
  - rewrite Hq0 in Hq. injection Hq as <-.
    eexists _, [_]. rewrite lookup_insert_eq. by repeat split.
  - exists Q, []. rewrite lookup_insert_ne by done. rewrite app_nil_r.
    repeat split; try done. cbn. lia.
Qed.

Lemma SendMsgTo_frame_witness :
  endpoints
    (set_queues
       (insert 10%nat
          {| dataList := [sentMessage hello None ""];
             limit := 2; closed := false |}) s_pair) =
  endpoints s_pair /\
  forall q Q,
    queues s_pair !! q = Some Q ->
    exists Q' tail,
      queues
        (set_queues
           (insert 10%nat
              {| dataList := [sentMessage hello None ""];
                 limit := 2; closed := false |}) s_pair) !! q = Some Q' /\
      limit Q' = limit Q /\
      closed Q' = closed Q /\
      dataList Q' = dataList Q ++ tail /\
      (length tail <= 1)%nat.
Proof.
  apply (SendMsgTo_frame s_pair _ 1%nat hello None (connectionless 0%nat)
           (5, None)).
  vm_compute. reflexivity.
Defined.

(** Delivery is first in, first out: two sends to the same destination,
    both successful, leave their two messages at the end of its queue in
    the order of the calls, each stamped with its own sender's path. *)
Theorem SendMsgTo_fifo (s s1 s2 : state) (e1 e2 : loc)
    (b1 b2 : baseEndpoint) (v1 v2 : View) (c1 c2 : ControlMessages)
    (to : Endpoint) (n1 n2 : Z) :
  endpoints s !! e1 = Some b1 ->
  endpoints s !! e2 = Some b2 ->
  SendMsgTo e1 v1 c1 to s = Ret (n1, None) s1 ->
  SendMsgTo e2 v2 c2 to s1 = Ret (n2, None) s2 ->
  exists l bl qr old,
    to = connectionless l /\
    endpoints s !! l = Some bl /\
    receiver bl = Some qr /\
    messages (readQueue qr) s = Some old /\
    messages (readQueue qr) s2 =
      Some (old ++ [sentMessage v1 c1 (path b1);
                    sentMessage v2 c2 (path b2)]).
Proof.
  intros He1 He2 H1 H2.
  apply SendMsgTo_success_inv in H1
    as (b1' & l & bl & qr & Q & -> & He1' & Hl & Hr & Hq & _ & ->).
  rewrite He1 in He1'. injection He1' as <-.
  apply SendMsgTo_success_inv in H2
    as (b2' & l' & bl' & qr' & Q' & Hto & He2' & Hl' & Hr' & Hq' & _ & ->).
  injection Hto as <-. store_simpl.
  rewrite He2 in He2'. injection He2' as <-.
  rewrite Hl in Hl'. injection Hl' as <-.
  rewrite Hr in Hr'. injection Hr' as <-.
  rewrite lookup_insert_eq in Hq'. injection Hq' as <-.
  exists l, bl, qr, (dataList Q). repeat split; try done.
  - unfold messages. by rewrite Hq.
  - unfold messages. cbn. rewrite lookup_insert_eq. cbn.
    by rewrite <- app_assoc.
Qed.

Lemma SendMsgTo_fifo_witness :
  exists l bl qr old,
    connectionless 0%nat = connectionless l /\
    endpoints s_pair !! l = Some bl /\
    receiver bl = Some qr /\
    messages (readQueue qr) s_pair = Some old /\
    messages (readQueue qr)
      (set_queues
         (insert 10%nat
            {| dataList := [sentMessage hello None "";
                            sentMessage world None "/s1"];
               limit := 2; closed := false |}) s_pair) =
      Some (old ++ [sentMessage hello None (path ep_unbound);
                    sentMessage world None (path ep_bound)]).
Proof.
  apply (SendMsgTo_fifo s_pair
           (set_queues
              (insert 10%nat
                 {| dataList := [sentMessage hello None ""];
                    limit := 2; closed := false |}) s_pair)
           _ 1%nat 0%nat ep_unbound ep_bound hello world None None
           (connectionless 0%nat) 5 5);
    vm_compute; reflexivity.
Defined.

(** [Close] does not stop an endpoint from sending: after [Close], a
    [SendMsgTo] by the closed endpoint to a destination whose queue is
    open and has room still delivers, and the message carries no source
    address. *)
Theorem SendMsgTo_after_Close (s s' : state) (e l : loc)
    (bl : baseEndpoint) (qr : queueReceiver) (Q : Queue) (v : View)
    (c : ControlMessages) :
  Close e s = Ret tt s' ->
  endpoints s' !! l = Some bl ->
  receiver bl = Some qr ->
  queues s' !! readQueue qr = Some Q ->
  closed Q = false ->
  (length (dataList Q) < limit Q)%nat ->
  len v <= maxInt ->
  SendMsgTo e v c (connectionless l) s' =
  Ret (len v, None)
    (set_queues
       (insert (readQueue qr)
          {| dataList :=
               dataList Q ++ [{| Data := v; Control := c;
                                 Address := zeroFullAddress |}];
             limit := limit Q; closed := false |}) s').
Proof.
  intros H Hl Hr Hq Hc Hroom Hlen.
  apply Close_Ret_inv in H as (b' & Hb' & _ & Hp').
  rewrite (SendMsgTo_room s' e l b' bl qr Q v c) by done.
  by rewrite (uintptr_len v Hlen), Hp'.
Qed.

Lemma SendMsgTo_after_Close_witness :
  SendMsgTo 1%nat hello None (connectionless 0%nat) s_closed =
  Ret (len hello, None)
    (set_queues
       (insert 10%nat
          {| dataList :=
               dataList q_empty ++ [{| Data := hello; Control := None;
                                       Address := zeroFullAddress |}];
             limit := limit q_empty; closed := false |}) s_closed).
Proof.
  apply (SendMsgTo_after_Close s_connected s_closed 1%nat 0%nat ep_bound
           {| readQueue := 10%nat |} q_empty hello None);
    try reflexivity.
  - vm_compute. lia.
  - vm_compute. discriminate.
Defined.

(** ** Readiness, again *)

(** Masking with one of the two event bits gives that bit or nothing. *)
Lemma land_EventIn_cases (a : Z) :
  Z.land a EventIn = 0 \/ Z.land a EventIn = EventIn.
Proof.
  unfold EventIn. change (Z.land a 1) with (Z.land a (Z.ones 1)).
  rewrite Z.land_ones by lia. change (2 ^ 1) with 2.
  pose proof (Z.mod_pos_bound a 2 eq_refl). lia.
Qed.

Lemma land_EventOut_cases (a : Z) :
  Z.land a EventOut = 0 \/ Z.land a EventOut = EventOut.
Proof.
  unfold EventOut.
  destruct (Z.testbit a 2) eqn:Hb; [right|left];
    apply Z.bits_inj'; intros n Hn; rewrite Z.land_spec;
    change 4 with (2 ^ 2); rewrite Z.pow2_bits_eqb by lia;
    destruct (Z.eqb_spec 2 n) as [<-|Hne];
    rewrite ?Hb, ?andb_false_r, ?Z.bits_0; reflexivity.
Qed.

(** [Readiness], read backwards: the store is untouched, and each bit of
    the answer was decided by the mask and by the receiver or the peer. *)
Lemma Readiness_Ret_inv (s s' : state) (e : loc) (mask m : Z) :
  Readiness e mask s = Ret m s' ->
  exists b (rd w : bool),
    endpoints s !! e = Some b /\
    s' = s /\
    m = (if w then Z.lor (if rd then Z.lor 0 EventIn else 0) EventOut
         else if rd then Z.lor 0 EventIn else 0) /\
    (rd = true <->
     Z.land mask EventIn <> 0 /\ Readable (receiver b) s = Ret true s) /\
    (w = true <->
     Z.land mask EventOut <> 0 /\ Writable (connected b) s = Ret true s).
Proof.
  intros H. unfold Readiness in H. unfold bind at 1 in H.
  destruct (andThen _ _ s) as [rd s1|] eqn:Hrd; [|done].
  pose proof (readable_half_reads s s1 e mask rd Hrd) as ->.
  destruct (endpoints s !! e) as [b|] eqn:He.
  2:{ unfold Connected, bind, getf in H. by rewrite He in H. }
  assert (Hrd' : rd = true <->
            Z.land mask EventIn <> 0 /\
            Readable (receiver b) s = Ret true s).
  { unfold andThen, bind, getf, ret in Hrd.
    destruct (Z.eqb_spec (Z.land mask EventIn) 0) as [Hm|Hm];
      cbn [negb] in Hrd.
    - injection Hrd as <-. split; [done|]. by intros [? _].
    - rewrite He in Hrd.
      destruct (receiver b) as [qr|]; [|done]. cbn in *.
      unfold IsReadable in *.
      destruct (queues s !! readQueue qr) as [Q|]; [|done].
      injection Hrd as Hrd. rewrite Hrd.
      split; [by intros ->|]. intros [_ Heq]. by injection Heq. }
  unfold Connected, bind, getf, ret in H. rewrite He in H.
  destruct (connected b) as [ce|] eqn:Hc.
  - unfold andThen, ret in H.
    destruct (Z.eqb_spec (Z.land mask EventOut) 0) as [Hm|Hm];
      cbn [negb] in H; cbv beta iota in H.
    + injection H as <- <-. exists b, rd, false.
      do 3 (split; [done|]). split; [exact Hrd'|].
      split; [done|]. by intros [? _].
    + rewrite He, Hc in H. cbn in *. unfold IsWritable in *.
      destruct (queues s !! writeQueue ce) as [W|] eqn:HW; [|done].
      injection H as <- <-.
      exists b, rd,
        (negb (closed W) && (length (dataList W) <? limit W)%nat).
      do 3 (split; [done|]). split; [exact Hrd'|].
      rewrite Hc. unfold Writable, IsWritable. rewrite HW.
      split; [intros Hw; by rewrite Hw|]. intros [_ Heq]. by injection Heq.
  - injection H as <- <-. exists b, rd, false.
    do 3 (split; [done|]). split; [exact Hrd'|].
    rewrite Hc. split; [done|]. by intros [_ ?].
Qed.

(** [Readiness] only looks: it leaves the store as it is, answers nothing
    but the readable and the writable bit, and never a bit the mask did
    not ask for. *)
Theorem Readiness_within_mask (s s' : state) (e : loc) (mask m : Z) :
  Readiness e mask s = Ret m s' ->
  s' = s /\
  Z.land m mask = m /\
  (m = 0 \/ m = EventIn \/ m = EventOut \/ m = Z.lor EventIn EventOut).
Proof.
  intros H.
  apply Readiness_Ret_inv in H as (b & rd & w & _ & -> & -> & Hrd & Hw).
  split; [done|].
  assert (Hin : rd = true -> Z.land EventIn mask = EventIn).
  { intros Ht. apply Hrd in Ht as [Hm _]. rewrite Z.land_comm.
    by destruct (land_EventIn_cases mask). }
  assert (Hout : w = true -> Z.land EventOut mask = EventOut).
  { intros Ht. apply Hw in Ht as [Hm _]. rewrite Z.land_comm.
    by destruct (land_EventOut_cases mask). }
  destruct rd, w; cbn [Z.lor];
    rewrite ?Z.land_lor_distr_l, ?Hin, ?Hout by done;
    (split; [reflexivity|]); auto.
Qed.

Lemma Readiness_within_mask_witness :
  s_connected = s_connected /\
  Z.land EventOut 5 = EventOut /\
  (EventOut = 0 \/ EventOut = EventIn \/ EventOut = EventOut \/
   EventOut = Z.lor EventIn EventOut).
Proof.
  apply (Readiness_within_mask s_connected s_connected 1%nat 5 EventOut).
  vm_compute. reflexivity.
Defined.

(** The readable bit is answered exactly when the mask asks for it and the
    endpoint's own receiver says it is readable; the default peer has no
    say in it. *)
Theorem Readiness_readable (s s' : state) (e : loc) (b : baseEndpoint)
    (mask m : Z) :
  endpoints s !! e = Some b ->
  Readiness e mask s = Ret m s' ->
  (Z.land m EventIn <> 0 <->
   Z.land mask EventIn <> 0 /\ Readable (receiver b) s = Ret true s).
Proof.
  intros He H.
  apply Readiness_Ret_inv in H as (b' & rd & w & He' & _ & -> & Hrd & _).
  rewrite He in He'. injection He' as <-.
  rewrite <- Hrd. destruct rd, w; cbn; split; done.
Qed.

Lemma Readiness_readable_witness :
  Z.land EventIn EventIn <> 0 <->
  Z.land 5 EventIn <> 0 /\
  Readable (receiver ep_bound) s_full = Ret true s_full.
Proof.
  apply (Readiness_readable s_full s_full 0%nat ep_bound 5 EventIn).
  - reflexivity.
  - vm_compute. reflexivity.
Defined.

(** On an endpoint whose receiver is nil, [Readiness] panics as soon as
    the mask asks for the readable bit; without that bit in the mask and
    with no default peer it returns the empty answer. *)
Theorem Readiness_closed (s : state) (e : loc) (b : baseEndpoint)
    (mask : Z) :
  endpoints s !! e = Some b ->
  receiver b = None ->
  (Z.land mask EventIn <> 0 -> Readiness e mask s = Panic) /\
  (Z.land mask EventIn = 0 -> connected b = None ->
     Readiness e mask s = Ret 0 s).
Proof.
  intros He Hr. split.
  - intros Hm. by apply (Readiness_nil_receiver s e b).
  - intros Hm Hc. unfold_ops. rewrite Hm. cbn. by rewrite He, Hc.
Qed.

Lemma Readiness_closed_witness :
  Readiness 1%nat 5 s_closed = Panic /\
  Readiness 1%nat 4 s_closed = Ret 0 s_closed.
Proof.
  split.
  - apply (proj1 (Readiness_closed s_closed 1%nat ep_closed 5
                    eq_refl eq_refl)).
    vm_compute. discriminate.
  - apply (proj2 (Readiness_closed s_closed 1%nat ep_closed 4
                    eq_refl eq_refl));
      reflexivity.
Defined.

(** ** ConnectEndpoint, again *)

(** A [ConnectEndpoint] that returns nil, read backwards. *)
Lemma ConnectEndpoint_success_inv (s s1 : state) (e : loc)
    (server : Endpoint) :
  ConnectEndpoint e server s = Ret None s1 ->
  exists b l bl qr,
    server = connectionless l /\
    endpoints s !! e = Some b /\
    endpoints s !! l = Some bl /\
    receiver bl = Some qr /\
    s1 = set_endpoints
           (insert e
              (set_connected
                 (Some {| endpoint := connectionless l;
                          writeQueue := readQueue qr |}) b)) s.
Proof.
  intros H. destruct server as [|l|l]; try done.
  unfold ConnectEndpoint, bind in H.
  destruct (endpoints s !! l) as [bl|] eqn:Hl.
  2:{ unfold UnidirectionalConnect, bind, getf in H. by rewrite Hl in H. }
  destruct (receiver bl) as [qr|] eqn:Hr.
  2:{ by rewrite (UnidirectionalConnect_nil_receiver s l bl) in H. }
  rewrite (UnidirectionalConnect_receiver s l bl qr) in H by done.
  unfold setf, ret in H.
  destruct (endpoints s !! e) as [b|] eqn:He; [|done].
  injection H as <-. by exists b, l, bl, qr.
Qed.

(** The last [ConnectEndpoint] wins: connecting to one server and then to
    another leaves the store exactly as connecting to the second alone. *)
Theorem ConnectEndpoint_last_wins (s s1 s2 : state) (e : loc)
    (server1 server2 : Endpoint) :
  ConnectEndpoint e server1 s = Ret None s1 ->
  ConnectEndpoint e server2 s1 = Ret None s2 ->
  ConnectEndpoint e server2 s = Ret None s2.
Proof.
  intros H1 H2.
  apply ConnectEndpoint_success_inv in H1
    as (b & l1 & bl1 & qr1 & -> & He & Hl1 & Hr1 & ->).
  apply ConnectEndpoint_success_inv in H2
    as (b' & l2 & bl2 & qr2 & -> & He' & Hl2 & Hr2 & ->).
  store_simpl. rewrite lookup_insert_eq in He'. injection He' as <-.
  rewrite insert_insert_eq. cbn.
  assert (Hl : exists bl, endpoints s !! l2 = Some bl /\
                          receiver bl = Some qr2).
  { destruct (decide (e = l2)) as [<-|Hne].
    - rewrite lookup_insert_eq in Hl2. injection Hl2 as <-.
      by exists b.
    - rewrite lookup_insert_ne in Hl2 by done. by exists bl2. }
  destruct Hl as (bl & Hl & Hr).
  unfold ConnectEndpoint, bind.
  rewrite (UnidirectionalConnect_receiver s l2 bl qr2) by done.
  unfold setf, ret. by rewrite He.
Qed.

Lemma ConnectEndpoint_last_wins_witness :
  ConnectEndpoint 1%nat (connectionless 1%nat) s_pair =
  Ret None
    (set_endpoints
       (insert 1%nat
          (set_connected
             (Some {| endpoint := connectionless 1%nat;
                      writeQueue := 11%nat |}) ep_unbound)) s_pair).
Proof.
  apply (ConnectEndpoint_last_wins s_pair s_connected _ 1%nat
           (connectionless 0%nat) (connectionless 1%nat));
    vm_compute; reflexivity.
Defined.

(** Connecting and polling compose: after a successful [ConnectEndpoint]
    by an endpoint whose own receiver is present, a [Readiness] call that
    asks for the writable bit alone answers it exactly when the server's
    queue says it is writable, and answers nothing otherwise. *)
Theorem ConnectEndpoint_then_Readiness (s s1 : state) (e : loc)
    (b : baseEndpoint) (r : queueReceiver) (server : Endpoint) :
  endpoints s !! e = Some b ->
  receiver b = Some r ->
  ConnectEndpoint e server s = Ret None s1 ->
  exists l bl qr,
    server = connectionless l /\
    endpoints s !! l = Some bl /\
    receiver bl = Some qr /\
    (exists b1, endpoints s1 !! e = Some b1 /\
                receiver b1 = Some r /\
                connected b1 =
                  Some {| endpoint := connectionless l;
                          writeQueue := readQueue qr |}) /\
    forall w,
      IsWritable (readQueue qr) s = Ret w s ->
      Readiness e EventOut s1 = Ret (if w then EventOut else 0) s1.
Proof.
  intros He0 Hr0 H.
  apply ConnectEndpoint_success_inv in H
    as (b' & l & bl & qr & -> & He & Hl & Hr & ->).
  rewrite He0 in He. injection He as <-.
  exists l, bl, qr. do 3 (split; [done|]). split.
  { eexists. cbn. rewrite lookup_insert_eq. by repeat split. }
  intros w Hw. unfold_ops.
  destruct (queues s !! readQueue qr) as [Q|] eqn:Hq; [|done].
  injection Hw as <-.
  change (Z.land EventOut EventIn =? 0) with true.
  change (Z.land EventOut EventOut =? 0) with false.
  cbn [negb]. store_simpl. rewrite !lookup_insert_eq. store_simpl.
  rewrite !lookup_insert_eq. store_simpl. rewrite Hq.
  by destruct (negb (closed Q) && (length (dataList Q) <? limit Q)%nat).
Qed.

Lemma ConnectEndpoint_then_Readiness_witness :
  exists l bl qr,
    connectionless 0%nat = connectionless l /\
    endpoints s_pair !! l = Some bl /\
    receiver bl = Some qr /\
    (exists b1, endpoints s_connected !! 1%nat = Some b1 /\
                receiver b1 = Some {| readQueue := 11%nat |} /\
                connected b1 =
                  Some {| endpoint := connectionless l;
                          writeQueue := readQueue qr |}) /\
    forall w,
      IsWritable (readQueue qr) s_pair = Ret w s_pair ->
      Readiness 1%nat EventOut s_connected =
      Ret (if w then EventOut else 0) s_connected.
Proof.
  apply (ConnectEndpoint_then_Readiness s_pair s_connected 1%nat
           ep_unbound {| readQueue := 11%nat |} (connectionless 0%nat)).
  - reflexivity.
  - reflexivity.
  - vm_compute. reflexivity.
Defined.

(** ** NewConnectionless *)

(** [NewConnectionless] returns a connectionless endpoint at an address
    the store did not have: unbound, with no default peer, and able to
    mint a handle to a new, open, empty queue of the given limit.  Every
    endpoint and queue that was there is untouched. *)
Theorem NewConnectionless_fresh (s s' : state) (initialLimit : nat)
    (ep : Endpoint) :
  NewConnectionless initialLimit s = Ret ep s' ->
  exists e h,
    ep = connectionless e /\
    endpoints s !! e = None /\
    isBound e s' = Ret false s' /\
    Connected e s' = Ret false s' /\
    UnidirectionalConnect e s' = Ret h s' /\
    queues s !! writeQueue h = None /\
    queues s' !! writeQueue h =
      Some {| dataList := []; limit := initialLimit; closed := false |} /\
    (forall e', e' <> e -> endpoints s' !! e' = endpoints s !! e') /\
    (forall q, q <> writeQueue h -> queues s' !! q = queues s !! q).
Proof.
  intros H. unfold NewConnectionless in H. injection H as <- <-.
  set (e := fresh (dom (endpoints s))).
  set (q := fresh (dom (queues s))).
  exists e, {| endpoint := connectionless e; writeQueue := q |}.
  assert (He : endpoints s !! e = None).
  { apply not_elem_of_dom. apply is_fresh. }
  assert (Hq : queues s !! q = None).
  { apply not_elem_of_dom. apply is_fresh. }
  unfold_ops. store_simpl. rewrite !lookup_insert_eq. store_simpl.
  repeat split; try done.
  - intros e' Hne. by rewrite lookup_insert_ne.
  - intros q' Hne. by rewrite lookup_insert_ne.
Qed.

Lemma NewConnectionless_fresh_witness :
  exists e h,
    connectionless 2%nat = connectionless e /\
    endpoints s_pair !! e = None /\
    isBound e s_three = Ret false s_three /\
    Connected e s_three = Ret false s_three /\
    UnidirectionalConnect e s_three = Ret h s_three /\
    queues s_pair !! writeQueue h = None /\
    queues s_three !! writeQueue h =
      Some {| dataList := []; limit := 2; closed := false |} /\
    (forall e', e' <> e -> endpoints s_three !! e' = endpoints s_pair !! e') /\
    (forall q, q <> writeQueue h -> queues s_three !! q = queues s_pair !! q).
Proof.
  apply (NewConnectionless_fresh s_pair s_three 2%nat (connectionless 2%nat)).
  vm_compute. reflexivity.
Defined.

End Unix.
